(** * Fourier ring iterators of miplib: a shallow embedding

    Source: [miplib/data/iterators/fourier_ring_iterators.py] (Python 2,
    NumPy).  The two classes [FourierRingIterator] and
    [SectionedFourierRingIterator] are embedded as records with explicit
    state passing; a method that may raise is a computation in a small
    state-and-exception monad.

    Numbers.  Image shapes, the ring thickness [d_bin] (a number of
    pixels), ring indices and the centred grid coordinates are integers
    ([Z]); [/] between two of them is Python 2 floor division.  Angles are
    reals.  The radius field
    [sqrt (x**2 + y**2)] and the angle field [arctan2 (y, x) + pi] are
    float64 arrays in NumPy; they are embedded over the real numbers [R],
    that is, rounding is idealised away: a stored radius or angle is the
    exact value, and [pi] is the real number.  A comparison of a stored
    value with a bound that it equals up to rounding can thus come out
    differently in NumPy; comparisons with integral ring bounds, as [next]
    makes them, are exact in both.  Array comparisons therefore go
    through the (classical) deciders of [R] and are reasoned about by
    lemmas rather than by evaluation; everything over [Z] evaluates. *)

From Stdlib Require Import ZArith List Bool Lia Reals Lra PeanoNat.
Import ListNotations.

Open Scope Z_scope.

(** ** Exceptions and the state-and-exception monad *)

Inductive exn : Type :=
| AssertionError
| ZeroDivisionError
| StopIteration.

Definition result (A : Type) : Type := (exn + A)%type.

Definition ok {A} (a : A) : result A := inr a.
Definition err {A} (e : exn) : result A := inl e.

Definition rbind {A B} (c : result A) (k : A -> result B) : result B :=
  match c with
  | inl e => inl e
  | inr a => k a
  end.

(** A method of an object of state [S]: it returns a value or raises, and
    in both cases leaves a state behind (a Python exception does not roll
    back attribute writes made before it). *)
Definition Py (S A : Type) : Type := S -> result A * S.

Definition ret {S A} (a : A) : Py S A := fun s => (inr a, s).
Definition raise {S A} (e : exn) : Py S A := fun s => (inl e, s).
Definition bind {S A B} (c : Py S A) (k : A -> Py S B) : Py S B :=
  fun s =>
    match c s with
    | (inl e, s') => (inl e, s')
    | (inr a, s') => k a s'
    end.
Definition get_self {S} : Py S S := fun s => (inr s, s).
Definition modify {S} (f : S -> S) : Py S unit := fun s => (inr tt, f s).

Declare Scope py_scope.
Delimit Scope py_scope with py.
Notation "x <- c ;; k" := (bind c (fun x => k))
  (at level 61, c at next level, right associativity) : py_scope.
Notation "c ;;; k" := (bind c (fun _ => k))
  (at level 61, right associativity) : py_scope.

(** ** Python 2 integer arithmetic *)

(** [a / b] on two [int]s: floor division, [ZeroDivisionError] on [b = 0]. *)
Definition py_div (a b : Z) : result Z :=
  if b =? 0 then err ZeroDivisionError else ok (a / b).

(** [np.floor (i / 2.0)] and [np.ceil (i / 2.0)] for an integer [i]; both
    results are integral floats. *)
Definition floor_half (i : Z) : Z := i / 2.
Definition ceil_half (i : Z) : Z := - ((- i) / 2).

(** ** The NumPy fragment used by the iterators *)

Definition ndarray (A : Type) : Type := list (list A).

(** [np.arange (start, stop, step)]: [ceil ((stop - start) / step)]
    elements [start + k * step] (none when that count is not positive).
    [step = 0] is rejected by NumPy; both call sites below are reached only
    with a non-zero step, and the model returns the empty array there. *)
Definition np_arange (start stop step : Z) : list Z :=
  map (fun k => start + Z.of_nat k * step)
      (seq 0 (Z.to_nat (- ((start - stop) / step)))).

(** [np.meshgrid (a, b)] with the default [indexing='xy']: two arrays of
    shape [(len b, len a)], the first holding [a[j]] at [[i, j]], the
    second [b[i]]. *)
Definition np_meshgrid {A} (a b : list A) : ndarray A * ndarray A :=
  (map (fun _ => a) b, map (fun v => map (fun _ => v) a) b).

Fixpoint zip_with {A B C} (f : A -> B -> C) (l1 : list A) (l2 : list B)
  : list C :=
  match l1, l2 with
  | a :: t1, b :: t2 => f a b :: zip_with f t1 t2
  | _, _ => []
  end.

(** Elementwise operations on arrays (of equal shape in every use). *)
Definition map2d {A B} (f : A -> B) (a : ndarray A) : ndarray B :=
  map (map f) a.
Definition zip2d {A B C} (f : A -> B -> C) (a : ndarray A) (b : ndarray B)
  : ndarray C :=
  zip_with (zip_with f) a b.

(** [a[i, j]], when in range. *)
Definition get2 {A} (a : ndarray A) (i j : nat) : option A :=
  match nth_error a i with
  | Some row => nth_error row j
  | None => None
  end.

(** [a.shape] of a 2-D array all of whose rows have length [c]. *)
Definition has_shape {A} (a : ndarray A) (r c : nat) : Prop :=
  length a = r /\ Forall (fun row => length row = c) a.

(** [np.where (mask)] for a 2-D mask: the indices of the true cells in
    row-major order.  NumPy returns the pair of index arrays
    [(rows, cols)]; the embedding keeps the two zipped, one pair per
    cell. *)
Fixpoint where_row (row : list bool) (j : nat) : list nat :=
  match row with
  | [] => []
  | b :: t => (if b then [j] else []) ++ where_row t (S j)
  end.

Fixpoint where_from (m : ndarray bool) (i : nat) : list (nat * nat) :=
  match m with
  | [] => []
  | row :: t => map (pair i) (where_row row 0) ++ where_from t (S i)
  end.

Definition np_where (m : ndarray bool) : list (nat * nat) := where_from m 0.

(** Comparisons of floats, idealised to [R]. *)
Definition Rgeb (x y : R) : bool := if Rle_dec y x then true else false.
Definition Rltb (x y : R) : bool := if Rlt_dec x y then true else false.

(** [np.arctan2 (y, x)] over the reals.  Signed zeros are not modelled:
    [arctan2 (0, 0) = 0] as for [+0.0].  The only [-0.0] the source can
    produce is the single coordinate of an axis of length 1, where NumPy
    gives [arctan2 (0.0, -0.0) = pi] and [arctan2 (-0.0, x) = - pi] for
    [x < 0]. *)
Definition np_arctan2 (y x : R) : R :=
  if Rlt_dec 0 x then atan (y / x)
  else if Rlt_dec x 0 then
    (if Rle_dec 0 y then atan (y / x) + PI else atan (y / x) - PI)%R
  else if Rlt_dec 0 y then (PI / 2)%R
  else if Rlt_dec y 0 then (- PI / 2)%R
  else 0%R.

(** Modelled from the spec: [miplib.processing.converters.degrees_to_radians],
    which is imported by the source and not part of it.  The spec only says
    that it converts degrees to radians. *)
Definition degrees_to_radians (angle : R) : R := (angle * PI / 180)%R.

(** ** class FourierRingIterator *)

Module FourierRingIterator.

Record t : Type := mk {
  d_bin : Z;
  ring_start : Z;
  _nbins : Z;
  meshgrid : ndarray Z * ndarray Z;
  r : ndarray R;
  current_ring : Z;
  freq_nyq : Z;
  _radii : list Z
}.

Definition set_current_ring (self : t) (v : Z) : t :=
  mk (d_bin self) (ring_start self) (_nbins self) (meshgrid self) (r self)
     v (freq_nyq self) (_radii self).

(** [__init__ (self, shape, d_bin)].  The grid cells are floats with
    integral values and are kept in [Z]. *)
Definition __init__ (shape : list Z) (d_bin : Z) : result t :=
  if negb (length shape =? 2)%nat then err AssertionError
  else
    rbind (py_div (nth 0 shape 0) (2 * d_bin)) (fun nbins =>
    let axes :=
      map (fun i => np_arange (- floor_half i) (ceil_half i) 1) shape in
    let '(y, x) := np_meshgrid (nth 0 axes []) (nth 1 axes []) in
    let nyq := floor_half (nth 0 shape 0) in
    ok {| d_bin := d_bin;
          ring_start := 0;
          _nbins := nbins;
          meshgrid := (y, x);
          r := zip2d (fun xv yv => sqrt (IZR (xv ^ 2 + yv ^ 2))) x y;
          current_ring := 0;
          freq_nyq := nyq;
          _radii := np_arange 0 nyq d_bin |}).

Definition radii (self : t) : list Z := _radii self.
Definition nbins (self : t) : Z := _nbins self.

Definition get_points_on_ring (self : t) (ring_start ring_stop : R)
  : ndarray bool :=
  let arr_inf := map2d (fun v => Rgeb v ring_start) (r self) in
  let arr_sup := map2d (fun v => Rltb v ring_stop) (r self) in
  zip2d andb arr_inf arr_sup.

Definition next : Py t (list (nat * nat) * Z) :=
  (self <- get_self ;;
   ring <- (if current_ring self <? _nbins self
            then ret (get_points_on_ring self
                        (IZR (current_ring self * d_bin self))
                        (IZR ((current_ring self + 1) * d_bin self)))
            else raise StopIteration) ;;
   modify (fun s => set_current_ring s (current_ring s + 1)) ;;;
   self' <- get_self ;;
   ret (np_where ring, current_ring self' - 1))%py.

(** [__iter__ (self)]: the iterator is its own iterable. *)
Definition __iter__ : Py t t := get_self.

End FourierRingIterator.

(** ** class SectionedFourierRingIterator (FourierRingIterator) *)

Module SectionedFourierRingIterator.

Module F := FourierRingIterator.

(** The inherited attributes are the [base] record. *)
Record t : Type := mk {
  base : F.t;
  d_angle : R;
  phi : ndarray R;
  _angle : R;
  angle_sector : ndarray bool
}.

Definition set_base (self : t) (b : F.t) : t :=
  mk b (d_angle self) (phi self) (_angle self) (angle_sector self).

(** [get_angle_sector] reads [self.phi] only; the constructor calls it
    before the record is complete, hence the version on the bare field. *)
Definition get_angle_sector_of (phi : ndarray R) (phi_min phi_max : R)
  : ndarray bool :=
  let arr_inf := map2d (fun v => Rgeb v phi_min) phi in
  let arr_sup := map2d (fun v => Rltb v phi_max) phi in
  let arr_inf_neg := map2d (fun v => Rgeb v (phi_min + PI)) phi in
  let arr_sup_neg := map2d (fun v => Rltb v (phi_max + PI)) phi in
  zip2d orb (zip2d andb arr_inf arr_sup) (zip2d andb arr_inf_neg arr_sup_neg).

Definition get_angle_sector (self : t) (phi_min phi_max : R)
  : ndarray bool :=
  get_angle_sector_of (phi self) phi_min phi_max.

(** [__init__ (self, shape, d_bin, d_angle)], [d_angle] in degrees. *)
Definition __init__ (shape : list Z) (d_bin : Z) (d_angle : R) : result t :=
  rbind (F.__init__ shape d_bin) (fun b =>
  let d_angle := degrees_to_radians d_angle in
  let '(y, x) := F.meshgrid b in
  let phi := zip2d (fun yv xv => (np_arctan2 (IZR yv) (IZR xv) + PI)%R) y x in
  let phi := map2d (fun v => (v + d_angle / 2)%R) phi in
  let phi :=
    map2d (fun v => if Rgeb v (2 * PI) then (v - 2 * PI)%R else v) phi in
  ok {| base := b;
        d_angle := d_angle;
        phi := phi;
        _angle := 0%R;
        angle_sector := get_angle_sector_of phi 0%R (IZR d_bin) |}).

(** The [angle] property: getter and setter. *)
Definition angle (self : t) : R := _angle self.

Definition set_angle (value : R) : Py t unit :=
  modify (fun self =>
    let angle := degrees_to_radians value in
    let self := mk (base self) (d_angle self) (phi self) angle
                   (angle_sector self) in
    mk (base self) (d_angle self) (phi self) (_angle self)
       (get_angle_sector self angle (angle + d_angle self)%R)).

(** [__getitem__ (self, (ring_start, ring_stop, angle_min, angle_max))]. *)
Definition __getitem__ (key : R * R * R * R) : Py t (list (nat * nat)) :=
  let '(ring_start, ring_stop, angle_min, angle_max) := key in
  (self <- get_self ;;
   let ring := F.get_points_on_ring (base self) ring_start ring_stop in
   let cone := get_angle_sector self angle_min angle_max in
   ret (np_where (zip2d andb ring cone)))%py.

Definition next : Py t (list (nat * nat) * Z) :=
  (self <- get_self ;;
   ring <- (if F.current_ring (base self) <? F._nbins (base self)
            then ret (F.get_points_on_ring (base self)
                        (IZR (F.current_ring (base self) * F.d_bin (base self)))
                        (IZR ((F.current_ring (base self) + 1)
                              * F.d_bin (base self))))
            else raise StopIteration) ;;
   modify (fun s =>
     set_base s (F.set_current_ring (base s) (F.current_ring (base s) + 1))) ;;;
   self' <- get_self ;;
   ret (np_where (zip2d andb ring (angle_sector self')),
        F.current_ring (base self') - 1))%py.

(** [__iter__], inherited: it returns the sectioned object itself. *)
Definition __iter__ : Py t t := get_self.

End SectionedFourierRingIterator.

Module F := FourierRingIterator.
Module SF := SectionedFourierRingIterator.

(** ** Pointwise descriptions of the fields, used to state the properties *)

(** The [k]-th cell of the centred axis of a dimension of length [n]. *)
Definition centred (n : Z) (k : nat) : option Z :=
  if (k <? Z.to_nat n)%nat then Some (Z.of_nat k - n / 2) else None.

(** The wrap-around applied to the angle field at construction. *)
Definition wrap (v : R) : R := if Rgeb v (2 * PI) then (v - 2 * PI)%R else v.

(** The value of the radius field and of the angle field at array cell
    [[i, j]], for an image of shape [(h, w)]: row [i] carries the [i]-th
    coordinate of the axis of length [w], column [j] the [j]-th coordinate
    of the axis of length [h]. *)
Definition pixel_r (h w : Z) (i j : nat) : option R :=
  match centred w i, centred h j with
  | Some x, Some y => Some (sqrt (IZR (x ^ 2 + y ^ 2)))
  | _, _ => None
  end.

Definition pixel_phi (h w : Z) (d_angle : R) (i j : nat) : option R :=
  match centred w i, centred h j with
  | Some x, Some y =>
      Some (wrap (np_arctan2 (IZR y) (IZR x) + PI + d_angle / 2))%R
  | _, _ => None
  end.

(** [(i, j)] indexes an array of shape [shape]. *)
Definition valid_index (shape : list Z) (c : nat * nat) : bool :=
  (Z.of_nat (fst c) <? nth 0 shape 0) && (Z.of_nat (snd c) <? nth 1 shape 0).

(** ** Rings, runs and reachable states *)

(** The mask of ring [k], as [next] computes it. *)
Definition ring_mask (it : F.t) (k : Z) : ndarray bool :=
  F.get_points_on_ring it (IZR (k * F.d_bin it)) (IZR ((k + 1) * F.d_bin it)).

(** The coordinates emitted for ring [k] by each variant. *)
Definition F_bin (it : F.t) (k : Z) : list (nat * nat) :=
  np_where (ring_mask it k).
Definition S_bin (s : SF.t) (k : Z) : list (nat * nat) :=
  np_where (zip2d andb (ring_mask (SF.base s) k) (SF.angle_sector s)).

(** A [for] loop over an iterator: [next] is called until it raises
    [StopIteration]; any other exception propagates ([None], as does
    running out of [fuel]). *)
Fixpoint drain {St A} (next : Py St A) (fuel : nat) (s : St)
  : option (list A * St) :=
  match fuel with
  | O => None
  | S fuel' =>
      match next s with
      | (inr a, s') =>
          match drain next fuel' s' with
          | Some (l, s'') => Some (a :: l, s'')
          | None => None
          end
      | (inl StopIteration, s') => Some ([], s')
      | (inl _, _) => None
      end
  end.

(** States reachable by method calls. *)
Inductive F_steps (s0 : F.t) : F.t -> Prop :=
| F_steps_refl : F_steps s0 s0
| F_steps_next s : F_steps s0 s -> F_steps s0 (snd (F.next s)).

Inductive S_steps (s0 : SF.t) : SF.t -> Prop :=
| S_steps_refl : S_steps s0 s0
| S_steps_next s : S_steps s0 s -> S_steps s0 (snd (SF.next s))
| S_steps_set_angle s v : S_steps s0 s -> S_steps s0 (snd (SF.set_angle v s))
| S_steps_getitem s key : S_steps s0 s -> S_steps s0 (snd (SF.__getitem__ key s)).

(** The random-access query as the specification words it: ring mask and
    sector mask, the two angles taken in degrees and converted. *)
Definition query_spec (s : SF.t) (ringStart ringStop angleMin angleMax : R)
  : list (nat * nat) :=
  np_where
    (zip2d andb
       (F.get_points_on_ring (SF.base s) ringStart ringStop)
       (SF.get_angle_sector s (degrees_to_radians angleMin)
                             (degrees_to_radians angleMax))).

(** The ring mask computed in integers, for integral ring bounds: the
    radius test [a <= sqrt n < b] is decided as [a^2 <= n < b^2].  It is
    proved equal to [ring_mask] below and lets ring coordinates be
    evaluated. *)
Definition ring_mask_int (h w d_bin k : Z) : ndarray bool :=
  map (fun xv =>
         map (fun yv =>
                ((k * d_bin) ^ 2 <=? xv ^ 2 + yv ^ 2)
                && (xv ^ 2 + yv ^ 2 <? ((k + 1) * d_bin) ^ 2))
             (np_arange (- floor_half h) (ceil_half h) 1))
      (np_arange (- floor_half w) (ceil_half w) 1).

(** [for item in obj: ...] collecting the items: [iter (obj)] is called
    once, then [next] on what it returned until exhaustion. *)
Definition for_loop {St A} (iter : Py St St) (next : Py St A) (fuel : nat)
  (obj : St) : option (list A * St) :=
  match iter obj with
  | (inr it, _) => drain next fuel it
  | (inl _, _) => None
  end.

(** * Properties *)

(** ** Arrays: lookup through the elementwise operations *)

Lemma nth_error_zip_with {A B C} (f : A -> B -> C) (l1 : list A) (l2 : list B) (n : nat) :
    nth_error (zip_with f l1 l2) n =
    match nth_error l1 n, nth_error l2 n with
    | Some a, Some b => Some (f a b)
    | _, _ => None
    end.
  Proof.
    revert l2 n; induction l1 as [|a t1 IH]; intros [|b t2] [|n]; simpl;
      try reflexivity.
    - destruct (nth_error t1 n); reflexivity.
    - apply IH.
  Qed.

Section ArrayLemmas.

Context {A B C : Type}.

Lemma get2_zip2d (f : A -> B -> C) (a : ndarray A) (b : ndarray B) (i j : nat) :
  get2 (zip2d f a b) i j =
  match get2 a i j, get2 b i j with
  | Some x, Some y => Some (f x y)
  | _, _ => None
  end.
Proof.
  unfold get2, zip2d. rewrite nth_error_zip_with.
  destruct (nth_error a i) as [ra|]; [|reflexivity].
  destruct (nth_error b i) as [rb|].
  - apply nth_error_zip_with.
  - destruct (nth_error ra j); reflexivity.
Qed.

Lemma get2_map2d (f : A -> B) (a : ndarray A) (i j : nat) :
  get2 (map2d f a) i j = option_map f (get2 a i j).
Proof.
  unfold get2, map2d. rewrite nth_error_map.
  destruct (nth_error a i) as [ra|]; simpl; [|reflexivity].
  apply nth_error_map.
Qed.

Lemma get2_meshgrid_fst (a b : list A) (i j : nat) :
  get2 (fst (np_meshgrid a b)) i j =
  if (i <? length b)%nat then nth_error a j else None.
Proof.
  unfold get2, np_meshgrid; simpl. rewrite nth_error_map.
  destruct (Nat.ltb_spec i (length b)) as [H|H].
  - destruct (nth_error b i) eqn:E; [reflexivity|].
    apply nth_error_None in E; lia.
  - apply nth_error_None in H. rewrite H. reflexivity.
Qed.

Lemma get2_meshgrid_snd (a b : list A) (i j : nat) :
  get2 (snd (np_meshgrid a b)) i j =
  if (j <? length a)%nat then nth_error b i else None.
Proof.
  unfold get2, np_meshgrid; simpl. rewrite nth_error_map.
  destruct (nth_error b i) as [v|]; simpl.
  - rewrite nth_error_map.
    destruct (Nat.ltb_spec j (length a)) as [H|H].
    + destruct (nth_error a j) eqn:E; [reflexivity|].
      apply nth_error_None in E; lia.
    + apply nth_error_None in H. rewrite H. reflexivity.
  - destruct (j <? length a)%nat; reflexivity.
Qed.

Lemma meshgrid_shape (a b : list A) :
  has_shape (fst (np_meshgrid a b)) (length b) (length a) /\
  has_shape (snd (np_meshgrid a b)) (length b) (length a).
Proof.
  unfold has_shape, np_meshgrid; simpl. rewrite !length_map.
  repeat split; auto; apply Forall_forall; intros row Hin;
    apply in_map_iff in Hin; destruct Hin as (v & <- & _); auto.
  apply length_map.
Qed.

End ArrayLemmas.

Lemma in_where_row (row : list bool) (j0 j : nat) :
  In j (where_row row j0) <->
  exists k, j = (j0 + k)%nat /\ nth_error row k = Some true.
Proof.
  revert j0; induction row as [|b t IH]; intros j0; simpl.
  - split; [tauto|]. intros (k & _ & H). destruct k; discriminate.
  - rewrite in_app_iff, IH. split.
    + intros [H|(k & -> & H)].
      * destruct b; simpl in H; [|tauto]. destruct H as [<-|[]].
        exists 0%nat. split; [lia|reflexivity].
      * exists (S k). split; [lia|exact H].
    + intros ([|k] & -> & H); simpl in H.
      * left. injection H as ->. left. lia.
      * right. exists k. split; [lia|exact H].
Qed.

Lemma in_where_from (m : ndarray bool) (i0 i j : nat) :
  In (i, j) (where_from m i0) <->
  exists k, i = (i0 + k)%nat /\ get2 m k j = Some true.
Proof.
  revert i0; induction m as [|row t IH]; intros i0; simpl.
  - split; [tauto|]. intros (k & _ & H). destruct k; discriminate.
  - rewrite in_app_iff, IH, in_map_iff. split.
    + intros [(j' & E & H)|(k & -> & H)].
      * injection E as <- <-. apply in_where_row in H.
        destruct H as (k & -> & H). exists 0%nat. split; [lia|exact H].
      * exists (S k). split; [lia|exact H].
    + intros ([|k] & -> & H).
      * left. exists j. split; [f_equal; lia|].
        apply in_where_row. exists j. split; [reflexivity|exact H].
      * right. exists k. split; [lia|exact H].
Qed.

(** [np.where] lists exactly the cells at which the mask is true. *)
Lemma in_np_where (m : ndarray bool) (i j : nat) :
  In (i, j) (np_where m) <-> get2 m i j = Some true.
Proof.
  unfold np_where. rewrite in_where_from. split.
  - intros (k & -> & H). exact H.
  - intros H. exists i. split; [reflexivity|exact H].
Qed.

Lemma length_np_arange (start stop step : Z) :
  length (np_arange start stop step) = Z.to_nat (- ((start - stop) / step)).
Proof. unfold np_arange. rewrite length_map, length_seq. reflexivity. Qed.

Lemma nth_error_np_arange (start stop step : Z) (k : nat) :
  nth_error (np_arange start stop step) k =
  if (k <? length (np_arange start stop step))%nat
  then Some (start + Z.of_nat k * step) else None.
Proof.
  rewrite length_np_arange. unfold np_arange.
  rewrite nth_error_map.
  destruct (Nat.ltb_spec k (Z.to_nat (- ((start - stop) / step)))) as [H|H].
  - rewrite nth_error_seq.
    destruct (Nat.ltb_spec k (Z.to_nat (- ((start - stop) / step)))); [|lia].
    reflexivity.
  - rewrite nth_error_seq.
    destruct (Nat.ltb_spec k (Z.to_nat (- ((start - stop) / step)))); [lia|].
    reflexivity.
Qed.

(** The centred axis of a dimension of length [n]: [n] cells, from
    [- floor (n / 2)] up to [ceil (n / 2) - 1]. *)
Lemma length_axis (n : Z) :
  length (np_arange (- floor_half n) (ceil_half n) 1) = Z.to_nat n.
Proof.
  rewrite length_np_arange. unfold floor_half, ceil_half.
  rewrite Z.div_1_r. f_equal.
  pose proof (Z.div_mod n 2 ltac:(lia)). pose proof (Z.mod_pos_bound n 2 ltac:(lia)).
  pose proof (Z.div_mod (-n) 2 ltac:(lia)). pose proof (Z.mod_pos_bound (-n) 2 ltac:(lia)).
  lia.
Qed.

Lemma nth_error_axis (n : Z) (k : nat) :
  nth_error (np_arange (- floor_half n) (ceil_half n) 1) k = centred n k.
Proof.
  rewrite nth_error_np_arange, length_axis. unfold centred, floor_half.
  destruct (k <? Z.to_nat n)%nat; [|reflexivity]. f_equal. lia.
Qed.

(** ** Construction *)

Lemma F_init_inv (shape : list Z) (d_bin : Z) (it : F.t) :
  F.__init__ shape d_bin = inr it ->
  exists h w,
    shape = [h; w] /\ d_bin <> 0 /\
    it = F.mk d_bin 0 (h / (2 * d_bin))
           (np_meshgrid (np_arange (- floor_half h) (ceil_half h) 1)
                        (np_arange (- floor_half w) (ceil_half w) 1))
           (zip2d (fun xv yv => sqrt (IZR (xv ^ 2 + yv ^ 2)))
              (snd (np_meshgrid (np_arange (- floor_half h) (ceil_half h) 1)
                                (np_arange (- floor_half w) (ceil_half w) 1)))
              (fst (np_meshgrid (np_arange (- floor_half h) (ceil_half h) 1)
                                (np_arange (- floor_half w) (ceil_half w) 1))))
           0 (h / 2) (np_arange 0 (h / 2) d_bin).
Proof.
  unfold F.__init__. intros H.
  destruct shape as [|h [|w [|? ?]]]; try discriminate H.
  cbn [length Nat.eqb negb nth] in H.
  unfold py_div in H. destruct (Z.eqb_spec (2 * d_bin) 0) as [E|E];
    [discriminate H|].
  exists h, w. split; [reflexivity|]. split; [lia|].
  cbn [rbind ok map nth np_meshgrid] in H.
  injection H as <-. reflexivity.
Qed.

Lemma F_init_ok (h w d_bin : Z) :
  d_bin <> 0 -> exists it, F.__init__ [h; w] d_bin = inr it.
Proof.
  intros Hd. unfold F.__init__, py_div. cbn [length Nat.eqb negb nth].
  destruct (Z.eqb_spec (2 * d_bin) 0) as [E|E]; [lia|].
  cbn [rbind ok map nth np_meshgrid]. eexists. reflexivity.
Qed.

Lemma F_init_zero (h w : Z) : F.__init__ [h; w] 0 = inl ZeroDivisionError.
Proof. reflexivity. Qed.

Section Constructed.

Variables (h w d_bin : Z) (it : F.t).
Hypothesis Hinit : F.__init__ [h; w] d_bin = inr it.

Lemma F_init_fields :
  F.d_bin it = d_bin /\ F._nbins it = h / (2 * d_bin) /\
  F.current_ring it = 0 /\ F.freq_nyq it = h / 2 /\
  F._radii it = np_arange 0 (h / 2) d_bin /\ d_bin <> 0.
Proof.
  destruct (F_init_inv _ _ _ Hinit) as (h' & w' & E & Hd & ->).
  injection E as <- <-. simpl. tauto.
Qed.

Lemma get2_Y (i j : nat) :
  get2 (fst (F.meshgrid it)) i j =
  if (i <? Z.to_nat w)%nat then centred h j else None.
Proof.
  destruct (F_init_inv _ _ _ Hinit) as (h' & w' & E & Hd & ->).
  injection E as <- <-. cbn [F.meshgrid].
  rewrite get2_meshgrid_fst, length_axis, nth_error_axis. reflexivity.
Qed.

Lemma get2_X (i j : nat) :
  get2 (snd (F.meshgrid it)) i j =
  if (j <? Z.to_nat h)%nat then centred w i else None.
Proof.
  destruct (F_init_inv _ _ _ Hinit) as (h' & w' & E & Hd & ->).
  injection E as <- <-. cbn [F.meshgrid].
  rewrite get2_meshgrid_snd, length_axis, nth_error_axis. reflexivity.
Qed.

Lemma grid_shape :
  has_shape (fst (F.meshgrid it)) (Z.to_nat w) (Z.to_nat h) /\
  has_shape (snd (F.meshgrid it)) (Z.to_nat w) (Z.to_nat h).
Proof.
  destruct (F_init_inv _ _ _ Hinit) as (h' & w' & E & Hd & ->).
  injection E as <- <-. cbn [F.meshgrid].
  rewrite <- (length_axis h), <- (length_axis w). apply meshgrid_shape.
Qed.

Lemma get2_r (i j : nat) : get2 (F.r it) i j = pixel_r h w i j.
Proof.
  pose proof (get2_X i j) as HX. pose proof (get2_Y i j) as HY.
  destruct (F_init_inv _ _ _ Hinit) as (h' & w' & E & Hd & ->).
  injection E as <- <-. cbn [F.meshgrid F.r] in *.
  rewrite get2_zip2d, HX, HY. unfold pixel_r, centred.
  destruct (i <? Z.to_nat w)%nat, (j <? Z.to_nat h)%nat; reflexivity.
Qed.

End Constructed.

(** ** Comparisons *)

(** Evaluate the closed integer under each [IZR]. *)
Ltac izr_norm :=
  repeat match goal with
         | |- context [IZR ?z] =>
             let z' := eval vm_compute in z in
             progress change (IZR z) with (IZR z')
         end.

Lemma Rgeb_true (x y : R) : Rgeb x y = true <-> (y <= x)%R.
Proof. unfold Rgeb. destruct (Rle_dec y x); split; auto; discriminate. Qed.

Lemma Rltb_true (x y : R) : Rltb x y = true <-> (x < y)%R.
Proof. unfold Rltb. destruct (Rlt_dec x y); split; auto; discriminate. Qed.

Lemma Rgeb_false (x y : R) : Rgeb x y = false <-> (x < y)%R.
Proof.
  unfold Rgeb. destruct (Rle_dec y x); split; auto; try discriminate; lra.
Qed.

Lemma Rltb_false (x y : R) : Rltb x y = false <-> (y <= x)%R.
Proof.
  unfold Rltb. destruct (Rlt_dec x y); split; auto; try discriminate; lra.
Qed.

Lemma in_range_true (a b v : R) :
  Rgeb v a && Rltb v b = true <-> (a <= v < b)%R.
Proof. rewrite andb_true_iff, Rgeb_true, Rltb_true. tauto. Qed.

(** ** The ring mask *)

Lemma get2_points_on_ring (it : F.t) (a b : R) (i j : nat) :
  get2 (F.get_points_on_ring it a b) i j =
  option_map (fun v => Rgeb v a && Rltb v b) (get2 (F.r it) i j).
Proof.
  unfold F.get_points_on_ring. rewrite get2_zip2d, !get2_map2d.
  destruct (get2 (F.r it) i j); reflexivity.
Qed.

Lemma points_on_ring_true (it : F.t) (a b : R) (i j : nat) :
  get2 (F.get_points_on_ring it a b) i j = Some true <->
  exists v, get2 (F.r it) i j = Some v /\ (a <= v < b)%R.
Proof.
  rewrite get2_points_on_ring. destruct (get2 (F.r it) i j) as [v|]; simpl.
  - split.
    + intros H. injection H as H. apply in_range_true in H. eauto.
    + intros (v' & E & H). injection E as <-. f_equal.
      apply in_range_true. exact H.
  - split; [discriminate|]. intros (v & E & _). discriminate.
Qed.

Lemma ring_masks_disjoint (it : F.t) (k k' : Z) (i j : nat) :
  1 <= F.d_bin it -> k < k' ->
  ~ (get2 (ring_mask it k) i j = Some true /\
     get2 (ring_mask it k') i j = Some true).
Proof.
  intros Hd Hk [H1 H2]. unfold ring_mask in *.
  apply points_on_ring_true in H1, H2.
  destruct H1 as (v & E1 & _ & Hlt). destruct H2 as (v' & E2 & Hge & _).
  rewrite E1 in E2. injection E2 as <-.
  assert (Hle : (IZR ((k + 1) * F.d_bin it) <= IZR (k' * F.d_bin it))%R)
    by (apply IZR_le; nia).
  lra.
Qed.

(** ** The cursor *)

Lemma F_next_ready (it : F.t) :
  F.current_ring it < F._nbins it ->
  F.next it =
  (inr (F_bin it (F.current_ring it), F.current_ring it),
   F.set_current_ring it (F.current_ring it + 1)).
Proof.
  intros H. unfold F.next, bind, get_self, ret, raise, modify.
  destruct (Z.ltb_spec (F.current_ring it) (F._nbins it)) as [_|]; [|lia].
  unfold F_bin, ring_mask. cbn [F.set_current_ring F.current_ring].
  repeat f_equal. lia.
Qed.

Lemma F_next_done (it : F.t) :
  F._nbins it <= F.current_ring it ->
  F.next it = (inl StopIteration, it).
Proof.
  intros H. unfold F.next, bind, get_self, ret, raise, modify.
  destruct (Z.ltb_spec (F.current_ring it) (F._nbins it)) as [|_]; [lia|].
  reflexivity.
Qed.

Lemma S_next_ready (s : SF.t) :
  F.current_ring (SF.base s) < F._nbins (SF.base s) ->
  SF.next s =
  (inr (S_bin s (F.current_ring (SF.base s)), F.current_ring (SF.base s)),
   SF.set_base s (F.set_current_ring (SF.base s)
                    (F.current_ring (SF.base s) + 1))).
Proof.
  intros H. unfold SF.next, bind, get_self, ret, raise, modify.
  destruct (Z.ltb_spec (F.current_ring (SF.base s)) (F._nbins (SF.base s)))
    as [_|]; [|lia].
  unfold S_bin, ring_mask.
  cbn [SF.set_base SF.base SF.angle_sector F.set_current_ring F.current_ring].
  repeat f_equal. lia.
Qed.

Lemma S_next_done (s : SF.t) :
  F._nbins (SF.base s) <= F.current_ring (SF.base s) ->
  SF.next s = (inl StopIteration, s).
Proof.
  intros H. unfold SF.next, bind, get_self, ret, raise, modify.
  destruct (Z.ltb_spec (F.current_ring (SF.base s)) (F._nbins (SF.base s)))
    as [|_]; [lia|].
  reflexivity.
Qed.

Lemma S_getitem_eq (key : R * R * R * R) (s : SF.t) :
  SF.__getitem__ key s =
  (inr (np_where
          (zip2d andb
             (F.get_points_on_ring (SF.base s) (fst (fst (fst key)))
                                   (snd (fst (fst key))))
             (SF.get_angle_sector s (snd (fst key)) (snd key)))), s).
Proof. destruct key as [[[a b] c] d]. reflexivity. Qed.

Lemma S_init_inv (shape : list Z) (d_bin : Z) (d_angle : R) (s : SF.t) :
  SF.__init__ shape d_bin d_angle = inr s ->
  exists it,
    F.__init__ shape d_bin = inr it /\
    SF.base s = it /\
    SF.d_angle s = degrees_to_radians d_angle /\
    SF._angle s = 0%R /\
    SF.phi s =
      map2d wrap
        (map2d (fun v => (v + degrees_to_radians d_angle / 2)%R)
           (zip2d (fun yv xv => (np_arctan2 (IZR yv) (IZR xv) + PI)%R)
              (fst (F.meshgrid it)) (snd (F.meshgrid it)))) /\
    SF.angle_sector s = SF.get_angle_sector s 0%R (IZR d_bin).
Proof.
  unfold SF.__init__. intros H.
  destruct (F.__init__ shape d_bin) as [e|it]; [discriminate H|].
  cbn [rbind] in H. destruct (F.meshgrid it) as [y x] eqn:E.
  injection H as <-. exists it. cbn. rewrite E. tauto.
Qed.

Lemma S_init_ok (h w d_bin : Z) (d_angle : R) :
  d_bin <> 0 -> exists s, SF.__init__ [h; w] d_bin d_angle = inr s.
Proof.
  intros Hd. destruct (F_init_ok h w d_bin Hd) as (it & E).
  unfold SF.__init__. rewrite E. cbn [rbind].
  destruct (F.meshgrid it) as [y x]. eexists. reflexivity.
Qed.

Lemma F_set_current_ring_eta (it : F.t) :
  F.set_current_ring it (F.current_ring it) = it.
Proof. destruct it; reflexivity. Qed.

Lemma F_bin_set_current_ring (it : F.t) (c k : Z) :
  F_bin (F.set_current_ring it c) k = F_bin it k.
Proof. reflexivity. Qed.

Lemma S_bin_set_base (s : SF.t) (c k : Z) :
  S_bin (SF.set_base s (F.set_current_ring (SF.base s) c)) k = S_bin s k.
Proof. reflexivity. Qed.

(** Every state reached from [it0] keeps the geometry and moves the cursor
    forward, never past [nbins]. *)
Lemma F_steps_inv (it0 it : F.t) :
  F.current_ring it0 <= F._nbins it0 ->
  F_steps it0 it ->
  (exists c, it = F.set_current_ring it0 c) /\
  F.current_ring it0 <= F.current_ring it <= F._nbins it0.
Proof.
  intros H0. induction 1 as [|s Hs (Hfr & Hc)].
  - split; [|lia]. exists (F.current_ring it0).
    symmetry. apply F_set_current_ring_eta.
  - destruct Hfr as (c & ->). cbn [F.current_ring F.set_current_ring] in Hc.
    destruct (Z.lt_ge_cases c (F._nbins it0)) as [Hlt|Hge].
    + rewrite F_next_ready by exact Hlt. cbn [snd F.current_ring F.set_current_ring].
      split; [exists (c + 1); reflexivity|lia].
    + rewrite F_next_done by exact Hge. cbn [snd F.current_ring F.set_current_ring].
      split; [exists c; reflexivity|lia].
Qed.

Lemma F_steps_terminal (it it' : F.t) :
  F._nbins it <= F.current_ring it -> F_steps it it' -> it' = it.
Proof.
  intros H. induction 1 as [|s Hs ->]; [reflexivity|].
  rewrite F_next_done by exact H. reflexivity.
Qed.

Lemma S_steps_inv (s0 s : SF.t) :
  F.current_ring (SF.base s0) <= F._nbins (SF.base s0) ->
  S_steps s0 s ->
  (exists c, SF.base s = F.set_current_ring (SF.base s0) c) /\
  SF.phi s = SF.phi s0 /\ SF.d_angle s = SF.d_angle s0 /\
  F.current_ring (SF.base s0) <= F.current_ring (SF.base s)
    <= F._nbins (SF.base s0).
Proof.
  intros H0. induction 1 as [|s Hs (Hfr & Hp & Hd & Hc)
                               |s v Hs IH|s key Hs IH].
  - repeat split; try lia. exists (F.current_ring (SF.base s0)).
    symmetry. apply F_set_current_ring_eta.
  - destruct Hfr as (c & Eb).
    destruct (Z.lt_ge_cases (F.current_ring (SF.base s)) (F._nbins (SF.base s)))
      as [Hlt|Hge].
    + rewrite S_next_ready by exact Hlt. unfold SF.set_base.
      cbn [snd SF.base SF.phi SF.d_angle]. rewrite Eb in *.
      cbn [F.current_ring F.set_current_ring F._nbins] in *.
      split; [eexists; reflexivity|]. repeat split; auto; lia.
    + rewrite S_next_done by exact Hge. cbn [snd]. rewrite Eb in *.
      cbn [F.current_ring F.set_current_ring F._nbins] in *.
      split; [eexists; reflexivity|]. repeat split; auto; lia.
  - exact IH.
  - rewrite S_getitem_eq. exact IH.
Qed.

Lemma S_steps_terminal (s s' : SF.t) :
  F._nbins (SF.base s) <= F.current_ring (SF.base s) ->
  S_steps s s' -> SF.base s' = SF.base s.
Proof.
  intros H. induction 1 as [|t Ht IH|t v Ht IH|t key Ht IH].
  - reflexivity.
  - rewrite S_next_done by (rewrite IH; exact H). exact IH.
  - exact IH.
  - rewrite S_getitem_eq. exact IH.
Qed.

(** ** Running an iterator to exhaustion *)

Section DrainCursor.

Context {St A : Type}.
Variables (next : Py St A) (cur nb : St -> Z) (emit : St -> A) (adv : St -> St).
Hypothesis next_ready : forall s, cur s < nb s -> next s = (inr (emit s), adv s).
Hypothesis next_done : forall s, nb s <= cur s -> next s = (inl StopIteration, s).
Hypothesis adv_cur : forall s, cur (adv s) = cur s + 1.
Hypothesis adv_nb : forall s, nb (adv s) = nb s.

Lemma iter_adv_comm (n : nat) (s : St) :
  Nat.iter n adv (adv s) = adv (Nat.iter n adv s).
Proof. induction n as [|n IH]; simpl; [reflexivity|]. now rewrite IH. Qed.

(** With the cursor [n] rings before the end, any fuel above [n] drains the
    iterator: [n] items, then [StopIteration]. *)
Lemma drain_cursor (n : nat) :
  forall (s : St) (fuel : nat),
    nb s - cur s = Z.of_nat n -> (n < fuel)%nat ->
    drain next fuel s =
    Some (map (fun i => emit (Nat.iter i adv s)) (seq 0 n), Nat.iter n adv s).
Proof.
  induction n as [|n IH]; intros s [|fuel] Hn Hf; try lia.
  - simpl. rewrite next_done by lia. reflexivity.
  - cbn [drain]. rewrite next_ready by lia.
    rewrite (IH (adv s) fuel) by (rewrite ?adv_cur, ?adv_nb; lia).
    cbn [seq map Nat.iter]. rewrite <- seq_shift, map_map.
    rewrite iter_adv_comm. do 3 f_equal.
    apply map_ext. intros i. simpl. now rewrite iter_adv_comm.
Qed.

End DrainCursor.

Lemma F_iter_advance (n : nat) (it : F.t) :
  Nat.iter n (fun s => F.set_current_ring s (F.current_ring s + 1)) it =
  F.set_current_ring it (F.current_ring it + Z.of_nat n).
Proof.
  induction n as [|n IH].
  - simpl. rewrite Z.add_0_r. symmetry. apply F_set_current_ring_eta.
  - rewrite Nat.iter_succ, IH. unfold F.set_current_ring. cbn. f_equal. lia.
Qed.

Lemma S_iter_advance (n : nat) (s : SF.t) :
  Nat.iter n
    (fun s => SF.set_base s (F.set_current_ring (SF.base s)
                               (F.current_ring (SF.base s) + 1))) s =
  SF.set_base s (F.set_current_ring (SF.base s)
                   (F.current_ring (SF.base s) + Z.of_nat n)).
Proof.
  induction n as [|n IH].
  - simpl. rewrite Z.add_0_r, F_set_current_ring_eta. destruct s; reflexivity.
  - rewrite Nat.iter_succ, IH. unfold SF.set_base, F.set_current_ring. cbn.
    do 2 f_equal. lia.
Qed.

Lemma F_drain (it : F.t) (fuel : nat) :
  F.current_ring it = 0 -> 0 <= F._nbins it ->
  (Z.to_nat (F._nbins it) < fuel)%nat ->
  drain F.next fuel it =
  Some (map (fun i => (F_bin it (Z.of_nat i), Z.of_nat i))
            (seq 0 (Z.to_nat (F._nbins it))),
        F.set_current_ring it (F._nbins it)).
Proof.
  intros H0 Hn Hf.
  rewrite (drain_cursor F.next F.current_ring F._nbins
             (fun s => (F_bin s (F.current_ring s), F.current_ring s))
             (fun s => F.set_current_ring s (F.current_ring s + 1))
             F_next_ready F_next_done
             (fun s => eq_refl) (fun s => eq_refl)
             (Z.to_nat (F._nbins it)) it fuel) by lia.
  rewrite F_iter_advance, H0. rewrite Z.add_0_l, Z2Nat.id by lia.
  do 2 f_equal.
  apply map_ext. intros i. rewrite F_iter_advance, H0. reflexivity.
Qed.

Lemma S_drain (s : SF.t) (fuel : nat) :
  F.current_ring (SF.base s) = 0 -> 0 <= F._nbins (SF.base s) ->
  (Z.to_nat (F._nbins (SF.base s)) < fuel)%nat ->
  drain SF.next fuel s =
  Some (map (fun i => (S_bin s (Z.of_nat i), Z.of_nat i))
            (seq 0 (Z.to_nat (F._nbins (SF.base s)))),
        SF.set_base s (F.set_current_ring (SF.base s) (F._nbins (SF.base s)))).
Proof.
  intros H0 Hn Hf.
  rewrite (drain_cursor SF.next
             (fun s => F.current_ring (SF.base s))
             (fun s => F._nbins (SF.base s))
             (fun s => (S_bin s (F.current_ring (SF.base s)),
                        F.current_ring (SF.base s)))
             (fun s => SF.set_base s (F.set_current_ring (SF.base s)
                                        (F.current_ring (SF.base s) + 1)))
             S_next_ready S_next_done
             (fun s => eq_refl) (fun s => eq_refl)
             (Z.to_nat (F._nbins (SF.base s))) s fuel) by lia.
  rewrite S_iter_advance, H0. rewrite Z.add_0_l, Z2Nat.id by lia.
  do 2 f_equal.
  apply map_ext. intros i. rewrite S_iter_advance, H0. reflexivity.
Qed.

(** C5 (amended).  The cursor state machine, for both variants constructed
    from a valid shape ([0 <= shape[0]]) and [d_bin >= 1], with
    [nbins = floor (shape[0] / (2 * d_bin))]:
    - a fresh iterator has [current_ring = 0];
    - every state reached by method calls has [0 <= current_ring <= nbins];
    - at [current_ring = k < nbins], [next] returns the coordinates of ring
      [k] together with [k], and leaves [current_ring = k + 1];
    - at [current_ring = nbins], [next] raises [StopIteration] and changes
      nothing, and no method call moves the cursor again;
    - a full iteration ends (with any fuel above [nbins]) after exactly
      [nbins] items, whose ring indices are [0, 1, ..., nbins - 1]. *)
Theorem C5_cursor_state_machine
  (h w d_bin : Z) (d_angle : R) (it0 : F.t) (s0 : SF.t) :
  0 <= h -> 1 <= d_bin ->
  F.__init__ [h; w] d_bin = inr it0 ->
  SF.__init__ [h; w] d_bin d_angle = inr s0 ->
  let n := h / (2 * d_bin) in
  (F.nbins it0 = n /\ F.current_ring it0 = 0 /\
   (forall it, F_steps it0 it ->
      F.nbins it = n /\ 0 <= F.current_ring it <= n /\
      (F.current_ring it < n ->
       F.next it =
       (inr (F_bin it0 (F.current_ring it), F.current_ring it),
        F.set_current_ring it (F.current_ring it + 1))) /\
      (F.current_ring it = n ->
       F.next it = (inl StopIteration, it) /\
       forall it', F_steps it it' -> it' = it)) /\
   (forall fuel, (Z.to_nat n < fuel)%nat ->
      exists it',
        drain F.next fuel it0 =
        Some (map (fun k => (F_bin it0 (Z.of_nat k), Z.of_nat k))
                  (seq 0 (Z.to_nat n)), it') /\
        F.current_ring it' = n)) /\
  (F.nbins (SF.base s0) = n /\ F.current_ring (SF.base s0) = 0 /\
   (forall s, S_steps s0 s ->
      F.nbins (SF.base s) = n /\ 0 <= F.current_ring (SF.base s) <= n /\
      (F.current_ring (SF.base s) < n ->
       SF.next s =
       (inr (S_bin s (F.current_ring (SF.base s)), F.current_ring (SF.base s)),
        SF.set_base s (F.set_current_ring (SF.base s)
                         (F.current_ring (SF.base s) + 1)))) /\
      (F.current_ring (SF.base s) = n ->
       SF.next s = (inl StopIteration, s) /\
       forall s', S_steps s s' -> F.current_ring (SF.base s') = n)) /\
   (forall fuel, (Z.to_nat n < fuel)%nat ->
      exists s',
        drain SF.next fuel s0 =
        Some (map (fun k => (S_bin s0 (Z.of_nat k), Z.of_nat k))
                  (seq 0 (Z.to_nat n)), s') /\
        F.current_ring (SF.base s') = n)).
Proof.
  intros Hh Hd HF HS n.
  assert (Hn : 0 <= n) by (apply Z.div_pos; lia).
  destruct (F_init_fields _ _ _ _ HF) as (_ & En & Ec & _).
  destruct (S_init_inv _ _ _ _ HS) as (it & HF' & Eb & _).
  rewrite HF in HF'. injection HF' as <-.
  fold n in En. unfold F.nbins. split.
  - split; [exact En|]. split; [exact Ec|]. split.
    + intros it Hst.
      destruct (F_steps_inv it0 it ltac:(lia) Hst) as ((c & ->) & Hc).
      cbn [F._nbins F.current_ring F.set_current_ring] in *.
      rewrite En, Ec in *. split; [reflexivity|]. split; [exact Hc|]. split.
      * intros Hlt. rewrite F_next_ready by (cbn; lia). reflexivity.
      * intros ->. split.
        -- apply F_next_done. cbn. lia.
        -- intros it'. apply F_steps_terminal. cbn. lia.
    + intros fuel Hf. eexists. split.
      * rewrite <- En. apply F_drain; [exact Ec|lia|rewrite En; exact Hf].
      * cbn. exact En.
  - rewrite Eb. split; [exact En|]. split; [exact Ec|]. split.
    + intros s Hst.
      destruct (S_steps_inv s0 s ltac:(rewrite Eb; lia) Hst)
        as ((c & Es) & _ & _ & Hc).
      rewrite Eb in Es, Hc. rewrite Es in *.
      cbn [F._nbins F.current_ring F.set_current_ring] in *.
      rewrite En, Ec in *. split; [reflexivity|]. split; [exact Hc|]. split.
      * intros Hlt. rewrite S_next_ready by (rewrite Es; cbn; lia).
        rewrite Es. reflexivity.
      * intros ->. split.
        -- apply S_next_done. rewrite Es. cbn. lia.
        -- intros s' Hs'.
           rewrite (S_steps_terminal s s') by (rewrite ?Es; cbn; auto; lia).
           rewrite Es. reflexivity.
    + intros fuel Hf. eexists. split.
      * rewrite <- En, <- Eb. apply S_drain; rewrite Eb; [exact Ec|lia|].
        rewrite En; exact Hf.
      * cbn. rewrite Eb. exact En.
Qed.

Lemma C5_witness :
  exists it0 s0,
    0 <= 4 /\ 1 <= 1 /\
    F.__init__ [4; 4] 1 = inr it0 /\
    SF.__init__ [4; 4] 1 90 = inr s0 /\
    F.nbins it0 = 4 / (2 * 1) /\ F.current_ring it0 = 0.
Proof.
  eexists. eexists.
  split; [lia|]. split; [lia|]. split; [reflexivity|]. split; [reflexivity|].
  pose proof (C5_cursor_state_machine 4 4 1 90 _ _
                ltac:(lia) ltac:(lia) eq_refl eq_refl) as H.
  split; [exact (proj1 (proj1 H))|exact (proj1 (proj2 (proj1 H)))].
Defined.

(** ** Ring count and radii *)

Lemma ceil_div_pos (q d : Z) :
  0 <= q -> 1 <= d ->
  - ((0 - q) / d) = q / d + (if q mod d =? 0 then 0 else 1).
Proof.
  intros Hq Hd. replace (0 - q) with (- q) by lia.
  destruct (Z.eqb_spec (q mod d) 0) as [E|E].
  - rewrite Z.div_opp_l_z by lia. lia.
  - rewrite Z.div_opp_l_nz by lia. lia.
Qed.

(** The claim as stated fails: shape [(6, 6)] with [d_bin = 2] has
    [nbins = 1] and [radii = [0, 2]]. *)
Lemma C7_counterexample :
  exists it,
    F.__init__ [6; 6] 2 = inr it /\
    F.nbins it = 1 /\ F.radii it = [0; 2] /\
    Z.of_nat (length (F.radii it)) <> F.nbins it.
Proof.
  destruct (F_init_ok 6 6 2 ltac:(lia)) as (it & E). exists it.
  destruct (F_init_fields _ _ _ _ E) as (_ & En & _ & _ & Er & _).
  unfold F.nbins, F.radii. rewrite En, Er.
  split; [exact E|]. split; [reflexivity|]. split; [reflexivity|].
  vm_compute. discriminate.
Qed.

(** C7 (amended).  For a shape with [0 <= shape[0]] and [d_bin >= 1]:
    [nbins = floor (shape[0] / (2 * d_bin))] exactly; the radii are
    [0, d_bin, 2 * d_bin, ...], all below [nyquist = floor (shape[0] / 2)];
    their number is [ceil (nyquist / d_bin)], which is [nbins] when [d_bin]
    divides [nyquist] and [nbins + 1] otherwise. *)
Theorem C7_nbins_and_radii (h w d_bin : Z) (it : F.t) :
  0 <= h -> 1 <= d_bin ->
  F.__init__ [h; w] d_bin = inr it ->
  F.nbins it = h / (2 * d_bin) /\
  F.freq_nyq it = h / 2 /\
  F.radii it =
    map (fun k => Z.of_nat k * d_bin) (seq 0 (length (F.radii it))) /\
  Forall (fun rad => 0 <= rad < F.freq_nyq it) (F.radii it) /\
  Z.of_nat (length (F.radii it)) =
    F.nbins it + (if (h / 2) mod d_bin =? 0 then 0 else 1).
Proof.
  intros Hh Hd Hinit.
  destruct (F_init_fields _ _ _ _ Hinit) as (_ & En & _ & Eq & Er & _).
  unfold F.nbins, F.radii. rewrite En, Eq, Er.
  assert (Hq : 0 <= h / 2) by (apply Z.div_pos; lia).
  assert (Hlen : Z.of_nat (length (np_arange 0 (h / 2) d_bin)) =
                 h / 2 / d_bin + (if (h / 2) mod d_bin =? 0 then 0 else 1)).
  { rewrite length_np_arange, ceil_div_pos by lia.
    pose proof (Z.div_pos (h / 2) d_bin Hq ltac:(lia)).
    destruct ((h / 2) mod d_bin =? 0); lia. }
  split; [reflexivity|]. split; [reflexivity|]. split; [|split].
  - rewrite length_np_arange. unfold np_arange. apply map_ext.
    intros k. lia.
  - apply Forall_forall. intros rad Hin.
    apply In_nth_error in Hin. destruct Hin as (k & Hk).
    rewrite nth_error_np_arange in Hk.
    destruct (Nat.ltb_spec k (length (np_arange 0 (h / 2) d_bin)))
      as [Hlt|]; [|discriminate].
    injection Hk as <-.
    pose proof (Z.div_mod (h / 2) d_bin ltac:(lia)) as Hdm.
    pose proof (Z.mod_pos_bound (h / 2) d_bin ltac:(lia)) as Hmb.
    destruct (Z.eqb_spec ((h / 2) mod d_bin) 0) as [E|E]; nia.
  - rewrite Hlen. rewrite Z.div_div by lia. reflexivity.
Qed.

Lemma C7_witness :
  exists it,
    0 <= 8 /\ 1 <= 1 /\ F.__init__ [8; 8] 1 = inr it /\
    F.nbins it = 8 / (2 * 1) /\
    Z.of_nat (length (F.radii it)) =
      F.nbins it + (if (8 / 2) mod 1 =? 0 then 0 else 1).
Proof.
  eexists. split; [lia|]. split; [lia|]. split; [reflexivity|].
  pose proof (C7_nbins_and_radii 8 8 1 _ ltac:(lia) ltac:(lia) eq_refl) as H.
  split; [exact (proj1 H)|exact (proj2 (proj2 (proj2 (proj2 H))))].
Defined.

(** ** The grid and the returned coordinates *)

(** The axis of a dimension of length [n] runs from [- floor (n / 2)] to
    [ceil (n / 2) - 1]. *)
Lemma centred_range (n : Z) (k : nat) (v : Z) :
  centred n k = Some v ->
  v = - floor_half n + Z.of_nat k /\ - floor_half n <= v <= ceil_half n - 1.
Proof.
  unfold centred, floor_half, ceil_half.
  destruct (Nat.ltb_spec k (Z.to_nat n)) as [H|]; [|discriminate].
  intros E. injection E as <-.
  pose proof (Z.div_mod n 2 ltac:(lia)). pose proof (Z.mod_pos_bound n 2 ltac:(lia)).
  pose proof (Z.div_mod (-n) 2 ltac:(lia)). pose proof (Z.mod_pos_bound (-n) 2 ltac:(lia)).
  lia.
Qed.

(** A coordinate pair emitted for a ring indexes the grid, whose shape is
    [(shape[1], shape[0])]. *)
Lemma F_bin_index_bounds (h w d_bin : Z) (it : F.t) (k : Z) (i j : nat) :
  F.__init__ [h; w] d_bin = inr it ->
  In (i, j) (F_bin it k) -> (i < Z.to_nat w)%nat /\ (j < Z.to_nat h)%nat.
Proof.
  intros Hinit Hin. unfold F_bin, ring_mask in Hin.
  apply in_np_where, points_on_ring_true in Hin.
  destruct Hin as (v & Hv & _). rewrite (get2_r _ _ _ _ Hinit) in Hv.
  unfold pixel_r, centred in Hv.
  destruct (Nat.ltb_spec i (Z.to_nat w)); [|discriminate].
  destruct (Nat.ltb_spec j (Z.to_nat h)); [|discriminate]. auto.
Qed.

(** On a square image the emitted coordinates index the image. *)
Lemma F_bin_valid_on_square (n d_bin : Z) (it : F.t) (k : Z) (c : nat * nat) :
  F.__init__ [n; n] d_bin = inr it ->
  In c (F_bin it k) -> valid_index [n; n] c = true.
Proof.
  intros Hinit Hin. destruct c as [i j].
  destruct (F_bin_index_bounds _ _ _ _ _ _ _ Hinit Hin) as [Hi Hj].
  unfold valid_index. cbn [fst snd nth].
  apply andb_true_iff. split; apply Z.ltb_lt; lia.
Qed.

(** C3, evaluated on the non-square shape [(2, 4)] with [d_bin = 1]: the
    two grid arrays have shape [(4, 2)], the transpose of the image shape,
    and the first iteration step returns the pair [(2, 1)], whose row
    index is outside an array of shape [(2, 4)]. *)
Theorem C3_grid_transposed_on_nonsquare_shape :
  exists it coords,
    F.__init__ [2; 4] 1 = inr it /\
    has_shape (fst (F.meshgrid it)) 4 2 /\
    has_shape (snd (F.meshgrid it)) 4 2 /\
    fst (F.next it) = inr (coords, 0) /\
    In (2%nat, 1%nat) coords /\
    valid_index [2; 4] (2%nat, 1%nat) = false.
Proof.
  destruct (F_init_ok 2 4 1 ltac:(lia)) as (it & E).
  destruct (F_init_fields _ _ _ _ E) as (Ed & En & Ec & _).
  exists it, (F_bin it 0).
  split; [exact E|]. split; [apply (grid_shape _ _ _ _ E)|].
  split; [apply (grid_shape _ _ _ _ E)|]. split; [|split; [|reflexivity]].
  - rewrite F_next_ready by (rewrite Ec, En; reflexivity).
    rewrite Ec. reflexivity.
  - unfold F_bin, ring_mask. apply in_np_where, points_on_ring_true.
    rewrite (get2_r _ _ _ _ E), Ed.
    exists (sqrt (IZR (0 ^ 2 + 0 ^ 2))). split; [reflexivity|].
    izr_norm. rewrite sqrt_0. lra.
Qed.

(** ** Parameter validation *)

(** The claim as stated fails: negative [d_bin] and negative [d_angle] are
    accepted, and [d_bin = 0] raises [ZeroDivisionError]. *)
Lemma C4_counterexample :
  (exists it, F.__init__ [4; 4] (-1) = inr it) /\
  (exists s, SF.__init__ [4; 4] (-1) 90 = inr s) /\
  (exists s, SF.__init__ [4; 4] 1 (-90) = inr s) /\
  F.__init__ [4; 4] 0 = inl ZeroDivisionError /\
  SF.__init__ [4; 4] 0 90 = inl ZeroDivisionError.
Proof.
  split; [apply F_init_ok; lia|]. split; [apply S_init_ok; lia|].
  split; [apply S_init_ok; lia|]. split; reflexivity.
Qed.

(** C4 (amended).  The constructors validate neither [d_bin] nor
    [d_angle].  With a two-element shape, construction of either variant
    fails exactly when [d_bin = 0], and then with the [ZeroDivisionError]
    of the [nbins] division; every other [d_bin] and every [d_angle],
    positive or not, is accepted. *)
Theorem C4_no_parameter_validation (h w d_bin : Z) (d_angle : R) :
  match F.__init__ [h; w] d_bin with
  | inl e => d_bin = 0 /\ e = ZeroDivisionError
  | inr it => d_bin <> 0 /\ F.d_bin it = d_bin
  end /\
  match SF.__init__ [h; w] d_bin d_angle with
  | inl e => d_bin = 0 /\ e = ZeroDivisionError
  | inr s => d_bin <> 0 /\ F.d_bin (SF.base s) = d_bin /\
             SF.d_angle s = degrees_to_radians d_angle
  end.
Proof.
  destruct (Z.eq_dec d_bin 0) as [->|Hd].
  - split; cbv [SF.__init__]; rewrite F_init_zero; cbn; auto.
  - split.
    + destruct (F_init_ok h w d_bin Hd) as (it & E). rewrite E.
      destruct (F_init_fields _ _ _ _ E) as (Ed & _). auto.
    + destruct (S_init_ok h w d_bin d_angle Hd) as (s & E). rewrite E.
      destruct (S_init_inv _ _ _ _ E) as (it & E' & Eb & Ea & _).
      destruct (F_init_fields _ _ _ _ E') as (Ed & _).
      rewrite Eb. auto.
Qed.

(** ** The current-angle property *)

(** The claim as stated fails: after setting the angle to 180 (degrees),
    reading it gives [PI]. *)
Lemma C8_counterexample :
  exists s,
    SF.__init__ [4; 4] 1 90 = inr s /\
    SF.angle (snd (SF.set_angle 180 s)) = PI /\
    SF.angle (snd (SF.set_angle 180 s)) <> 180%R.
Proof.
  destruct (S_init_ok 4 4 1 90 ltac:(lia)) as (s & E). exists s.
  split; [exact E|].
  assert (H : SF.angle (snd (SF.set_angle 180 s)) = PI).
  { cbn. unfold degrees_to_radians. field. }
  split; [exact H|]. rewrite H. pose proof PI_4. lra.
Qed.

(** C8 (amended).  The setter of the current-angle property takes degrees:
    it stores the value converted to radians and recomputes the cached
    sector mask for [[angle, angle + d_angle)].  The getter returns the
    stored value, in radians: after setting [x], reading gives
    [degrees_to_radians x], which is [x] only for [x = 0]. *)
Theorem C8_angle_set_then_get (s : SF.t) (x : R) :
  fst (SF.set_angle x s) = inr tt /\
  SF.angle (snd (SF.set_angle x s)) = degrees_to_radians x /\
  (SF.angle (snd (SF.set_angle x s)) = x <-> x = 0%R) /\
  SF.angle_sector (snd (SF.set_angle x s)) =
    SF.get_angle_sector s (degrees_to_radians x)
                          (degrees_to_radians x + SF.d_angle s) /\
  SF.base (snd (SF.set_angle x s)) = SF.base s /\
  SF.phi (snd (SF.set_angle x s)) = SF.phi s /\
  SF.d_angle (snd (SF.set_angle x s)) = SF.d_angle s.
Proof.
  cbn. repeat split; try reflexivity.
  - unfold degrees_to_radians. intros H. pose proof PI_4. nra.
  - intros ->. unfold degrees_to_radians. field.
Qed.

(** ** Random access *)

(** C9.  [__getitem__] returns its result without raising and leaves the
    whole iterator state as it was, in particular [current_ring], the
    current angle and the cached sector mask; calling it again with the
    same arguments, any number of times, returns the same result. *)
Theorem C9_getitem_idempotent_and_pure (s : SF.t) (key : R * R * R * R) :
  snd (SF.__getitem__ key s) = s /\
  F.current_ring (SF.base (snd (SF.__getitem__ key s))) =
    F.current_ring (SF.base s) /\
  SF.angle (snd (SF.__getitem__ key s)) = SF.angle s /\
  SF.angle_sector (snd (SF.__getitem__ key s)) = SF.angle_sector s /\
  (exists coords, fst (SF.__getitem__ key s) = inr coords) /\
  forall n : nat,
    SF.__getitem__ key
      (Nat.iter n (fun t => snd (SF.__getitem__ key t)) s) =
    SF.__getitem__ key s.
Proof.
  assert (Hs : snd (SF.__getitem__ key s) = s)
    by (rewrite S_getitem_eq; reflexivity).
  rewrite Hs. repeat split; try reflexivity.
  - rewrite S_getitem_eq. eexists. reflexivity.
  - intros n. f_equal. induction n as [|n IH]; [reflexivity|].
    rewrite Nat.iter_succ, IH. exact Hs.
Qed.

(** ** The angle field and the sector mask *)

Lemma get2_phi (h w d_bin : Z) (d_angle : R) (s : SF.t) (i j : nat) :
  SF.__init__ [h; w] d_bin d_angle = inr s ->
  get2 (SF.phi s) i j = pixel_phi h w (degrees_to_radians d_angle) i j.
Proof.
  intros Hinit.
  destruct (S_init_inv _ _ _ _ Hinit) as (it & HF & _ & _ & _ & Ep & _).
  rewrite Ep, !get2_map2d, get2_zip2d.
  rewrite (get2_Y _ _ _ _ HF), (get2_X _ _ _ _ HF).
  unfold pixel_phi, centred.
  destruct (i <? Z.to_nat w)%nat, (j <? Z.to_nat h)%nat; reflexivity.
Qed.

Lemma get2_angle_sector (s : SF.t) (a b : R) (i j : nat) :
  get2 (SF.get_angle_sector s a b) i j =
  option_map (fun v => (Rgeb v a && Rltb v b)
                       || (Rgeb v (a + PI) && Rltb v (b + PI)))
             (get2 (SF.phi s) i j).
Proof.
  unfold SF.get_angle_sector, SF.get_angle_sector_of.
  rewrite !get2_zip2d, !get2_map2d.
  destruct (get2 (SF.phi s) i j); reflexivity.
Qed.

Lemma angle_sector_true (s : SF.t) (a b : R) (i j : nat) :
  get2 (SF.get_angle_sector s a b) i j = Some true <->
  exists v, get2 (SF.phi s) i j = Some v /\
            ((a <= v < b)%R \/ (a + PI <= v < b + PI)%R).
Proof.
  rewrite get2_angle_sector. destruct (get2 (SF.phi s) i j) as [v|]; simpl.
  - split.
    + intros H. injection H as H. exists v. split; [reflexivity|].
      apply orb_true_iff in H. rewrite !in_range_true in H. exact H.
    + intros (v' & E & H). injection E as <-. f_equal.
      apply orb_true_iff. rewrite !in_range_true. exact H.
  - split; [discriminate|]. intros (v & E & _). discriminate.
Qed.

Lemma angle_sector_false (s : SF.t) (a b : R) (i j : nat) (v : R) :
  get2 (SF.phi s) i j = Some v ->
  ~ (a <= v < b)%R -> ~ (a + PI <= v < b + PI)%R ->
  get2 (SF.get_angle_sector s a b) i j = Some false.
Proof.
  intros E H1 H2. rewrite get2_angle_sector, E. simpl. f_equal.
  apply orb_false_iff. split; apply not_true_is_false;
    rewrite in_range_true; assumption.
Qed.

Lemma wrap_lt (v : R) : (v < 2 * PI)%R -> wrap v = v.
Proof. intros H. unfold wrap. apply Rgeb_false in H. now rewrite H. Qed.

Lemma wrap_ge (v : R) : (2 * PI <= v)%R -> wrap v = (v - 2 * PI)%R.
Proof. intros H. unfold wrap. apply Rgeb_true in H. now rewrite H. Qed.

Lemma arctan2_0_0 : np_arctan2 0 0 = 0%R.
Proof.
  unfold np_arctan2.
  repeat match goal with |- context [Rlt_dec ?a ?b] =>
    destruct (Rlt_dec a b); try lra end.
Qed.

Lemma arctan2_pos_0 (y : R) : (0 < y)%R -> np_arctan2 y 0 = (PI / 2)%R.
Proof.
  intros H. unfold np_arctan2.
  repeat match goal with |- context [Rlt_dec ?a ?b] =>
    destruct (Rlt_dec a b); try lra end.
Qed.

Lemma rad_360 : degrees_to_radians 360 = (2 * PI)%R.
Proof. unfold degrees_to_radians. field. Qed.


Lemma rad_90 : degrees_to_radians 90 = (PI / 2)%R.
Proof. unfold degrees_to_radians. field. Qed.

Lemma rad_0 : degrees_to_radians 0 = 0%R.
Proof. unfold degrees_to_radians. field. Qed.

(** The angle field at the centre of a [4 x 4] image, and one cell to its
    right. *)
Lemma pixel_phi_centre (d : R) :
  pixel_phi 4 4 d 2 2 = Some (wrap (0 + PI + d / 2)).
Proof.
  change (pixel_phi 4 4 d 2 2)
    with (Some (wrap (np_arctan2 (IZR 0) (IZR 0) + PI + d / 2))).
  now rewrite arctan2_0_0.
Qed.

Lemma pixel_phi_right (d : R) :
  pixel_phi 4 4 d 2 3 = Some (wrap (PI / 2 + PI + d / 2)).
Proof.
  change (pixel_phi 4 4 d 2 3)
    with (Some (wrap (np_arctan2 (IZR 1) (IZR 0) + PI + d / 2))).
  rewrite arctan2_pos_0 by lra. reflexivity.
Qed.

Lemma pixel_r_right : pixel_r 4 4 2 3 = Some 1%R.
Proof.
  change (pixel_r 4 4 2 3) with (Some (sqrt (IZR 1))). now rewrite sqrt_1.
Qed.

Lemma pixel_r_centre : pixel_r 4 4 2 2 = Some 0%R.
Proof.
  change (pixel_r 4 4 2 2) with (Some (sqrt (IZR 0))). now rewrite sqrt_0.
Qed.

(** ** The sector mask cached at construction *)




(** ** Sectioned iteration against plain iteration *)

(** C1, evaluated on shape [(4, 4)], [d_bin = 1], [d_angle = 360] with the
    current angle never assigned: a full iteration of each variant yields
    two rings, and for ring 1 the plain iterator returns the pixel at array
    index [(2, 3)] (radius 1, angle pi / 2) while the sectioned iterator
    does not, its cached sector being [[0, 1)] and [[pi, 1 + pi)]. *)
Theorem C1_full_sector_differs_from_plain :
  exists it s c0 c1 c0' c1' it' s',
    F.__init__ [4; 4] 1 = inr it /\
    SF.__init__ [4; 4] 1 360 = inr s /\
    drain F.next 3 it = Some ([(c0, 0); (c1, 1)], it') /\
    drain SF.next 3 s = Some ([(c0', 0); (c1', 1)], s') /\
    In (2%nat, 3%nat) c1 /\ ~ In (2%nat, 3%nat) c1'.
Proof.
  destruct (F_init_ok 4 4 1 ltac:(lia)) as (it & EF).
  destruct (S_init_ok 4 4 1 360 ltac:(lia)) as (s & ES).
  destruct (F_init_fields _ _ _ _ EF) as (Ed & En & Ec & _).
  destruct (S_init_inv _ _ _ _ ES) as (it1 & EF' & Eb & _ & _ & _ & M).
  rewrite EF in EF'. injection EF' as <-.
  pose proof PI_RGT_0 as Hpi. pose proof PI2_1 as Hpi2.
  exists it, s, (F_bin it 0), (F_bin it 1), (S_bin s 0), (S_bin s 1).
  do 2 eexists.
  split; [exact EF|]. split; [exact ES|]. split; [|split; [|split]].
  - rewrite F_drain by (rewrite ?En, ?Ec; cbn; lia).
    rewrite En. reflexivity.
  - rewrite S_drain by (rewrite ?Eb, ?En, ?Ec; cbn; lia).
    rewrite Eb, En. reflexivity.
  - unfold F_bin, ring_mask. apply in_np_where, points_on_ring_true.
    rewrite (get2_r _ _ _ _ EF), pixel_r_right, Ed.
    eexists. split; [reflexivity|]. izr_norm. lra.
  - unfold S_bin. rewrite in_np_where, get2_zip2d, M.
    erewrite angle_sector_false.
    + destruct (get2 (ring_mask (SF.base s) 1) 2 3) as [[|]|]; discriminate.
    + rewrite (get2_phi _ _ _ _ _ _ _ ES), pixel_phi_right, rad_360.
      rewrite wrap_ge by lra. reflexivity.
    + lra.
    + lra.
Qed.

(** ** Random access against its documentation *)

(** C2, evaluated on shape [(4, 4)], [d_bin = 1], [d_angle = 90] with the
    key [(1, 2, 0, 90)]: the pixel at array index [(2, 3)] has radius 1 and
    angle 7 pi / 4.  [__getitem__] passes 0 and 90 to [get_angle_sector]
    unconverted, as radians, and returns the pixel; with the two angles
    converted from degrees the sector is [[0, pi / 2)] and
    [[pi, 3 pi / 2)], which does not hold the pixel. *)
Theorem C2_getitem_takes_angles_as_radians :
  exists s coords,
    SF.__init__ [4; 4] 1 90 = inr s /\
    SF.__getitem__ (1, 2, 0, 90)%R s = (inr coords, s) /\
    In (2%nat, 3%nat) coords /\
    ~ In (2%nat, 3%nat) (query_spec s 1 2 0 90).
Proof.
  destruct (S_init_ok 4 4 1 90 ltac:(lia)) as (s & ES).
  destruct (S_init_inv _ _ _ _ ES) as (it & EF & Eb & _).
  pose proof PI_RGT_0 as Hpi. pose proof PI2_1 as Hpi2. pose proof PI_4 as Hpi4.
  assert (Ephi : get2 (SF.phi s) 2 3 = Some (PI / 2 + PI + PI / 2 / 2)%R).
  { rewrite (get2_phi _ _ _ _ _ _ _ ES), pixel_phi_right, rad_90.
    rewrite wrap_lt by lra. reflexivity. }
  assert (Er : get2 (F.get_points_on_ring (SF.base s) 1 2) 2 3 = Some true).
  { apply points_on_ring_true. rewrite Eb, (get2_r _ _ _ _ EF), pixel_r_right.
    eexists. split; [reflexivity|]. lra. }
  exists s. eexists. split; [exact ES|]. split; [reflexivity|]. split.
  - rewrite in_np_where, get2_zip2d, Er.
    replace (get2 (SF.get_angle_sector s 0 90) 2 3) with (Some true);
      [reflexivity|].
    symmetry. apply angle_sector_true. eexists. split; [exact Ephi|].
    left. lra.
  - unfold query_spec. rewrite in_np_where, get2_zip2d, Er.
    erewrite angle_sector_false; [discriminate|exact Ephi| |];
      rewrite rad_0, rad_90; lra.
Qed.

(** ** Arrays: extensionality and lengths *)

Lemma length_zip_with {A B C} (f : A -> B -> C) (l1 : list A) (l2 : list B) :
  length (zip_with f l1 l2) = Nat.min (length l1) (length l2).
Proof.
  revert l2; induction l1 as [|a t1 IH]; intros [|b t2]; simpl; auto.
Qed.

Lemma get2_ext {A} (a b : ndarray A) :
  length a = length b ->
  (forall i j, get2 a i j = get2 b i j) -> a = b.
Proof.
  intros Hlen H. apply nth_error_ext. intros i.
  specialize (H i). unfold get2 in H.
  destruct (nth_error a i) as [ra|] eqn:Ea, (nth_error b i) as [rb|] eqn:Eb.
  - f_equal. apply nth_error_ext. exact H.
  - apply nth_error_None in Eb.
    assert (i < length a)%nat by (apply nth_error_Some; congruence). lia.
  - apply nth_error_None in Ea.
    assert (i < length b)%nat by (apply nth_error_Some; congruence). lia.
  - reflexivity.
Qed.

Lemma length_r (h w d_bin : Z) (it : F.t) :
  F.__init__ [h; w] d_bin = inr it -> length (F.r it) = Z.to_nat w.
Proof.
  intros Hinit.
  destruct (F_init_inv _ _ _ Hinit) as (h' & w' & E & _ & ->).
  injection E as <- <-. cbn [F.r]. unfold zip2d, np_meshgrid.
  cbn [fst snd]. rewrite length_zip_with, !length_map, length_axis. lia.
Qed.

Lemma length_phi (h w d_bin : Z) (d_angle : R) (s : SF.t) :
  SF.__init__ [h; w] d_bin d_angle = inr s -> length (SF.phi s) = Z.to_nat w.
Proof.
  intros Hinit.
  destruct (S_init_inv _ _ _ _ Hinit) as (it & HF & _ & _ & _ & Ep & _).
  destruct (F_init_inv _ _ _ HF) as (h' & w' & E & _ & ->).
  injection E as <- <-. rewrite Ep. cbn [F.meshgrid].
  unfold map2d, zip2d, np_meshgrid. cbn [fst snd].
  rewrite !length_map, length_zip_with, !length_map, length_axis. lia.
Qed.

Lemma length_points_on_ring (it : F.t) (a b : R) :
  length (F.get_points_on_ring it a b) = length (F.r it).
Proof.
  unfold F.get_points_on_ring, zip2d, map2d.
  rewrite length_zip_with, !length_map. lia.
Qed.

Lemma length_angle_sector (s : SF.t) (a b : R) :
  length (SF.get_angle_sector s a b) = length (SF.phi s).
Proof.
  unfold SF.get_angle_sector, SF.get_angle_sector_of, zip2d, map2d.
  rewrite !length_zip_with, !length_map. lia.
Qed.

(** ** The ring mask in integers *)

Lemma sqrt_range_int (a b n : Z) :
  0 <= a -> 0 <= b -> 0 <= n ->
  (IZR a <= sqrt (IZR n) < IZR b)%R <-> a ^ 2 <= n < b ^ 2.
Proof.
  intros Ha Hb Hn.
  assert (Ra : (0 <= IZR a)%R) by (apply IZR_le; exact Ha).
  assert (Rb : (0 <= IZR b)%R) by (apply IZR_le; exact Hb).
  assert (Rn : (0 <= IZR n)%R) by (apply IZR_le; exact Hn).
  pose proof (sqrt_pos (IZR n)) as Hs.
  pose proof (sqrt_sqrt (IZR n) Rn) as Hss.
  rewrite !Z.pow_2_r. split.
  - intros [H1 H2]. split.
    + apply le_IZR. rewrite mult_IZR. nra.
    + apply lt_IZR. rewrite mult_IZR. nra.
  - intros [H1 H2].
    apply IZR_le in H1. apply IZR_lt in H2. rewrite mult_IZR in H1, H2.
    split.
    + destruct (Rle_lt_dec (IZR a) (sqrt (IZR n))) as [|Hc]; [assumption|nra].
    + destruct (Rlt_le_dec (sqrt (IZR n)) (IZR b)) as [|Hc]; [assumption|nra].
Qed.

Lemma get2_ring_mask_int (h w d_bin k : Z) (i j : nat) :
  get2 (ring_mask_int h w d_bin k) i j =
  match centred w i, centred h j with
  | Some xv, Some yv =>
      Some (((k * d_bin) ^ 2 <=? xv ^ 2 + yv ^ 2)
            && (xv ^ 2 + yv ^ 2 <? ((k + 1) * d_bin) ^ 2))
  | _, _ => None
  end.
Proof.
  unfold get2, ring_mask_int. rewrite nth_error_map, nth_error_axis.
  destruct (centred w i) as [xv|]; simpl; [|reflexivity].
  rewrite nth_error_map, nth_error_axis.
  destruct (centred h j); reflexivity.
Qed.

(** For [d_bin >= 1] and a ring index [k >= 0] the mask that [next]
    computes over the reals is the integer mask. *)
Lemma ring_mask_int_correct (h w d_bin : Z) (it : F.t) (k : Z) :
  F.__init__ [h; w] d_bin = inr it -> 1 <= d_bin -> 0 <= k ->
  ring_mask it k = ring_mask_int h w d_bin k.
Proof.
  intros Hinit Hd Hk.
  destruct (F_init_fields _ _ _ _ Hinit) as (Ed & _).
  apply get2_ext.
  - unfold ring_mask. rewrite length_points_on_ring, (length_r _ _ _ _ Hinit).
    unfold ring_mask_int. now rewrite length_map, length_axis.
  - intros i j. unfold ring_mask.
    rewrite get2_points_on_ring, (get2_r _ _ _ _ Hinit), get2_ring_mask_int, Ed.
    unfold pixel_r.
    destruct (centred w i) as [xv|]; [|reflexivity].
    destruct (centred h j) as [yv|]; [|reflexivity].
    cbn [option_map]. f_equal.
    apply eq_true_iff_eq.
    rewrite in_range_true, andb_true_iff, Z.leb_le, Z.ltb_lt.
    apply sqrt_range_int; nia.
Qed.

(** The scenario of the specification: shape [(8, 8)], [d_bin = 1] has
    [nbins = 4], [radii = [0, 1, 2, 3]], and ring 0 is the single pixel at
    array index [(4, 4)]. *)
Lemma scenario_8x8 :
  exists it,
    F.__init__ [8; 8] 1 = inr it /\
    F.nbins it = 4 /\ F.freq_nyq it = 4 /\ F.radii it = [0; 1; 2; 3] /\
    F_bin it 0 = [(4%nat, 4%nat)].
Proof.
  destruct (F_init_ok 8 8 1 ltac:(lia)) as (it & E). exists it.
  destruct (F_init_fields _ _ _ _ E) as (_ & En & _ & Eq & Er & _).
  unfold F.nbins, F.radii, F_bin.
  rewrite En, Eq, Er, (ring_mask_int_correct _ _ _ _ _ E) by lia.
  repeat split; try reflexivity. exact E.
Qed.

(** ** The range of the angle field *)

Lemma arctan2_range (y x : R) : (- PI < np_arctan2 y x <= PI)%R.
Proof.
  pose proof PI_RGT_0 as Hpi. pose proof (atan_bound (y / x)) as Hb.
  unfold np_arctan2.
  destruct (Rlt_dec 0 x) as [Hx|Hx]; [lra|].
  destruct (Rlt_dec x 0) as [Hx'|Hx'].
  - assert (Hinv : (/ x < 0)%R) by (apply Rinv_lt_0_compat; exact Hx').
    destruct (Rle_dec 0 y) as [Hy|Hy].
    + assert (Hq : (y / x <= 0)%R) by (unfold Rdiv; nra).
      assert (Ha : (atan (y / x) <= 0)%R).
      { destruct Hq as [Hq|Hq].
        - pose proof (atan_increasing _ _ Hq) as H. rewrite atan_0 in H. lra.
        - rewrite Hq, atan_0. lra. }
      lra.
    + assert (Hq : (0 < y / x)%R) by (unfold Rdiv; nra).
      pose proof (atan_increasing _ _ Hq) as H. rewrite atan_0 in H. lra.
  - destruct (Rlt_dec 0 y); [lra|]. destruct (Rlt_dec y 0); lra.
Qed.

Lemma wrap_range (a d : R) :
  (- PI < a <= PI)%R -> (0 <= d <= 2 * PI)%R ->
  (0 <= wrap (a + PI + d / 2) < 2 * PI)%R.
Proof.
  intros Ha Hd. pose proof PI_RGT_0 as Hpi.
  destruct (Rle_lt_dec (2 * PI) (a + PI + d / 2)) as [H|H].
  - rewrite wrap_ge by exact H. lra.
  - rewrite wrap_lt by exact H. lra.
Qed.

(** For an angle step between 0 and 360 degrees the angle field lies in
    [[0, 2 pi)]. *)
Lemma phi_range (h w d_bin : Z) (d_angle : R) (s : SF.t) (i j : nat) (v : R) :
  SF.__init__ [h; w] d_bin d_angle = inr s ->
  (0 <= d_angle <= 360)%R ->
  get2 (SF.phi s) i j = Some v -> (0 <= v < 2 * PI)%R.
Proof.
  intros Hinit Hd Hv. rewrite (get2_phi _ _ _ _ _ _ _ Hinit) in Hv.
  unfold pixel_phi in Hv.
  destruct (centred w i) as [xv|]; [|discriminate].
  destruct (centred h j) as [yv|]; [|discriminate].
  injection Hv as <-. apply wrap_range; [apply arctan2_range|].
  unfold degrees_to_radians. pose proof PI_RGT_0. split; nra.
Qed.

(** What the claim C1 asks for does hold once the current angle has been
    assigned: with [d_angle = 360] and the angle set to 0, the setter caches
    the sector [[0, 2 pi)] and every ring of the sectioned iterator is the
    ring of the plain iterator. *)
Lemma sectioned_360_after_set_angle (h w d_bin : Z) (it : F.t) (s : SF.t) (k : Z) :
  F.__init__ [h; w] d_bin = inr it ->
  SF.__init__ [h; w] d_bin 360 = inr s ->
  S_bin (snd (SF.set_angle 0 s)) k = F_bin it k.
Proof.
  intros HF HS.
  destruct (S_init_inv _ _ _ _ HS) as (it' & HF' & Eb & Ed & _).
  rewrite HF in HF'. injection HF' as <-.
  unfold S_bin, F_bin. unfold SF.set_angle, modify, SF.get_angle_sector.
  cbn [snd SF.base SF.angle_sector SF.d_angle SF.phi].
  fold (SF.get_angle_sector s (degrees_to_radians 0)
          (degrees_to_radians 0 + SF.d_angle s)).
  rewrite Eb. f_equal. rewrite Ed, rad_0, rad_360.
  apply get2_ext.
  - unfold zip2d at 1. rewrite length_zip_with. unfold ring_mask.
    rewrite length_points_on_ring, length_angle_sector.
    cbn [SF.phi]. rewrite (length_r _ _ _ _ HF), (length_phi _ _ _ _ _ HS). lia.
  - intros i j. rewrite get2_zip2d, get2_angle_sector. cbn [SF.phi].
    unfold ring_mask. rewrite get2_points_on_ring, (get2_r _ _ _ _ HF).
    destruct (get2 (SF.phi s) i j) as [v|] eqn:Ev.
    + pose proof (phi_range _ _ _ _ _ _ _ _ HS ltac:(lra) Ev) as Hv.
      destruct (pixel_r h w i j); [|reflexivity]. cbn [option_map].
      replace (Rgeb v 0 && Rltb v (0 + 2 * PI)) with true.
      * cbn [orb]. now rewrite andb_true_r.
      * symmetry. apply in_range_true. lra.
    + rewrite (get2_phi _ _ _ _ _ _ _ HS) in Ev.
      unfold pixel_phi in Ev. unfold pixel_r.
      destruct (centred w i); [|reflexivity].
      destruct (centred h j); [discriminate|reflexivity].
Qed.

(** The concrete scenario of claim C2: on shape [(4, 4)], [d_bin = 1],
    [d_angle = 90] the key [(0, 1, 0, 90)] returns the centre pixel only,
    which is also what the query of the specification holds there. *)
Lemma getitem_scenario_ring0 :
  exists s coords,
    SF.__init__ [4; 4] 1 90 = inr s /\
    SF.__getitem__ (0, 1, 0, 90)%R s = (inr coords, s) /\
    (forall c, In c coords <-> c = (2%nat, 2%nat)) /\
    In (2%nat, 2%nat) (query_spec s 0 1 0 90).
Proof.
  destruct (S_init_ok 4 4 1 90 ltac:(lia)) as (s & ES).
  destruct (S_init_inv _ _ _ _ ES) as (it & EF & Eb & _).
  destruct (F_init_fields _ _ _ _ EF) as (Ed & _).
  pose proof PI_RGT_0 as Hpi. pose proof PI2_1 as Hpi2. pose proof PI_4 as Hpi4.
  assert (Ering : F.get_points_on_ring (SF.base s) 0 1 = ring_mask_int 4 4 1 0).
  { rewrite <- (ring_mask_int_correct 4 4 1 it 0 EF) by lia.
    unfold ring_mask. rewrite Eb, Ed. reflexivity. }
  assert (Ephi : get2 (SF.phi s) 2 2 = Some (0 + PI + PI / 2 / 2)%R).
  { rewrite (get2_phi _ _ _ _ _ _ _ ES), pixel_phi_centre, rad_90.
    rewrite wrap_lt by lra. reflexivity. }
  exists s. eexists. split; [exact ES|]. split; [reflexivity|]. split.
  - intros [i j]. rewrite in_np_where, get2_zip2d, Ering. split.
    + intros H.
      assert (Hin : In (i, j) (np_where (ring_mask_int 4 4 1 0))).
      { apply in_np_where.
        destruct (get2 (ring_mask_int 4 4 1 0) i j) as [[|]|];
          [reflexivity|exfalso|discriminate].
        destruct (get2 (SF.get_angle_sector s 0 90) i j); discriminate. }
      vm_compute in Hin. destruct Hin as [Hin|[]]. now symmetry.
    + intros E. injection E as -> ->.
      replace (get2 (SF.get_angle_sector s 0 90) 2 2) with (Some true);
        [reflexivity|].
      symmetry. apply angle_sector_true. eexists. split; [exact Ephi|].
      left. lra.
  - unfold query_spec. rewrite in_np_where, get2_zip2d, Ering.
    replace (get2 (SF.get_angle_sector s (degrees_to_radians 0)
                                         (degrees_to_radians 90)) 2 2)
      with (Some true); [reflexivity|].
    symmetry. apply angle_sector_true. eexists. split; [exact Ephi|].
    right. rewrite rad_0, rad_90. lra.
Qed.

(** * Further properties of the iterators *)

(** ** Layout of the grid *)



(** ** Rings in integer arithmetic *)

Lemma in_F_bin_int (h w d_bin : Z) (it : F.t) (k : Z) (i j : nat) :
  F.__init__ [h; w] d_bin = inr it -> 1 <= d_bin -> 0 <= k ->
  In (i, j) (F_bin it k) <->
  exists x y,
    centred w i = Some x /\ centred h j = Some y /\
    (k * d_bin) ^ 2 <= x ^ 2 + y ^ 2 < ((k + 1) * d_bin) ^ 2.
Proof.
  intros Hinit Hd Hk. unfold F_bin.
  rewrite (ring_mask_int_correct _ _ _ _ _ Hinit Hd Hk).
  rewrite in_np_where, get2_ring_mask_int.
  destruct (centred w i) as [x|].
  - destruct (centred h j) as [y|].
    + split.
      * intros H. injection H as H. apply andb_true_iff in H.
        rewrite Z.leb_le, Z.ltb_lt in H. exists x, y. auto.
      * intros (x' & y' & Ex & Ey & H). injection Ex as <-. injection Ey as <-.
        f_equal. apply andb_true_iff. rewrite Z.leb_le, Z.ltb_lt. exact H.
    + split; [discriminate|]. intros (x' & y' & _ & Ey & _). discriminate.
  - split; [discriminate|]. intros (x' & y' & Ex & _). discriminate.
Qed.

(** X2.  With [d_bin >= 1], the coordinates that [next] emits for ring
    [k >= 0] are exactly the grid cells whose centred coordinates [(x, y)]
    satisfy [(k * d_bin)^2 <= x^2 + y^2 < ((k + 1) * d_bin)^2]: the
    square-root test of [get_points_on_ring] is an exact integer test. *)
Theorem X2_ring_is_integer_annulus
  (h w d_bin : Z) (it : F.t) (k : Z) (i j : nat) :
  F.__init__ [h; w] d_bin = inr it -> 1 <= d_bin -> 0 <= k ->
  In (i, j) (F_bin it k) <->
  exists x y,
    centred w i = Some x /\ centred h j = Some y /\
    (k * d_bin) ^ 2 <= x ^ 2 + y ^ 2 < ((k + 1) * d_bin) ^ 2.
Proof. apply in_F_bin_int. Qed.

Lemma X2_witness :
  exists it,
    F.__init__ [8; 8] 2 = inr it /\ 1 <= 2 /\ 0 <= 1 /\
    (In (4%nat, 6%nat) (F_bin it 1) <->
     exists x y,
       centred 8 4 = Some x /\ centred 8 6 = Some y /\
       (1 * 2) ^ 2 <= x ^ 2 + y ^ 2 < ((1 + 1) * 2) ^ 2).
Proof.
  eexists. split; [reflexivity|]. split; [lia|]. split; [lia|].
  apply (X2_ring_is_integer_annulus 8 8 2 _ 1 4 6 eq_refl); lia.
Defined.

(** X3.  With [shape[0] >= 0] and [d_bin >= 1] the rings have no gaps and
    stop at radius [nbins * d_bin]: a grid cell with centred coordinates
    [(x, y)] is emitted for some ring index in [[0, nbins)] exactly when
    [x^2 + y^2 < (nbins * d_bin)^2], and the only ring that can hold it is
    [floor (isqrt (x^2 + y^2) / d_bin)].  Cells at or beyond that radius
    (the corners of the grid, for instance) are never emitted. *)
Theorem X3_rings_cover_disc
  (h w d_bin : Z) (it : F.t) (i j : nat) (x y : Z) :
  0 <= h -> 1 <= d_bin ->
  F.__init__ [h; w] d_bin = inr it ->
  centred w i = Some x -> centred h j = Some y ->
  ((exists k, 0 <= k < F.nbins it /\ In (i, j) (F_bin it k)) <->
   x ^ 2 + y ^ 2 < (F.nbins it * d_bin) ^ 2) /\
  (forall k, 0 <= k -> In (i, j) (F_bin it k) ->
             k = Z.sqrt (x ^ 2 + y ^ 2) / d_bin).
Proof.
  intros Hh Hd Hinit Ex Ey.
  set (n := x ^ 2 + y ^ 2).
  assert (Hn : 0 <= n) by (unfold n; nia).
  pose proof (Z.sqrt_spec n Hn) as Hs. pose proof (Z.sqrt_nonneg n) as Hq.
  set (q := Z.sqrt n) in *. cbv zeta in Hs. unfold Z.succ in Hs.
  assert (HN : 0 <= F.nbins it).
  { destruct (F_init_fields _ _ _ _ Hinit) as (_ & En & _).
    unfold F.nbins. rewrite En. apply Z.div_pos; lia. }
  assert (Hchar : forall k, 0 <= k ->
            (In (i, j) (F_bin it k) <->
             (k * d_bin) ^ 2 <= n < ((k + 1) * d_bin) ^ 2)).
  { intros k Hk. rewrite (in_F_bin_int _ _ _ _ _ _ _ Hinit Hd Hk). split.
    - intros (x' & y' & Ex' & Ey' & H).
      rewrite Ex in Ex'. rewrite Ey in Ey'.
      injection Ex' as <-. injection Ey' as <-. exact H.
    - intros H. exists x, y. auto. }
  assert (Huniq : forall k, 0 <= k ->
            (k * d_bin) ^ 2 <= n < ((k + 1) * d_bin) ^ 2 -> k = q / d_bin).
  { intros k Hk [H1 H2]. clearbody n q. rewrite !Z.pow_2_r in *.
    assert (Ha : k * d_bin < q + 1)
      by (destruct (Z.lt_ge_cases (k * d_bin) (q + 1)); [assumption|nia]).
    assert (Hb : q < (k + 1) * d_bin)
      by (destruct (Z.lt_ge_cases q ((k + 1) * d_bin)); [assumption|nia]).
    apply (Z.div_unique_pos q d_bin k (q - d_bin * k)); lia. }
  split.
  - split.
    + intros (k & Hk & Hin). apply Hchar in Hin; [|lia].
      rewrite !Z.pow_2_r in *.
      assert (Hab : 0 <= (k + 1) * d_bin <= F.nbins it * d_bin) by nia.
      pose proof (Z.square_le_mono_nonneg _ _ (proj1 Hab) (proj2 Hab)). lia.
    + intros Hlt. exists (q / d_bin).
      pose proof (Z.div_mod q d_bin ltac:(lia)) as Hdm.
      pose proof (Z.mod_pos_bound q d_bin ltac:(lia)) as Hmb.
      assert (Hk0 : 0 <= q / d_bin) by (apply Z.div_pos; lia).
      assert (HqN : q < F.nbins it * d_bin).
      { rewrite !Z.pow_2_r in *.
        destruct (Z.lt_ge_cases q (F.nbins it * d_bin)) as [|Hge];
          [assumption|].
        pose proof (Z.square_le_mono_nonneg (F.nbins it * d_bin) q
                      ltac:(nia) Hge). lia. }
      split.
      * split; [exact Hk0|]. apply Z.div_lt_upper_bound; lia.
      * apply Hchar; [exact Hk0|]. rewrite !Z.pow_2_r in *.
        assert (Hlo : 0 <= q / d_bin * d_bin <= q) by nia.
        assert (Hhi : 0 <= q + 1 <= (q / d_bin + 1) * d_bin) by nia.
        pose proof (Z.square_le_mono_nonneg _ _ (proj1 Hlo) (proj2 Hlo)).
        pose proof (Z.square_le_mono_nonneg _ _ (proj1 Hhi) (proj2 Hhi)).
        lia.
  - intros k Hk Hin. apply Huniq; [exact Hk|]. apply Hchar; assumption.
Qed.

Lemma X3_witness :
  exists it,
    0 <= 4 /\ 1 <= 1 /\ F.__init__ [4; 4] 1 = inr it /\
    centred 4 0 = Some (-2) /\ centred 4 0 = Some (-2) /\
    ((exists k, 0 <= k < F.nbins it /\ In (0%nat, 0%nat) (F_bin it k)) <->
     (-2) ^ 2 + (-2) ^ 2 < (F.nbins it * 1) ^ 2).
Proof.
  eexists. split; [lia|]. split; [lia|]. split; [reflexivity|].
  split; [reflexivity|]. split; [reflexivity|].
  exact (proj1 (X3_rings_cover_disc 4 4 1 _ 0 0 (-2) (-2)
                  ltac:(lia) ltac:(lia) eq_refl eq_refl eq_refl)).
Defined.

(** ** Masks and coordinate lists *)

Lemma in_np_where_and (a b : ndarray bool) (c : nat * nat) :
  In c (np_where (zip2d andb a b)) <-> In c (np_where a) /\ In c (np_where b).
Proof.
  destruct c as [i j]. rewrite !in_np_where, get2_zip2d.
  destruct (get2 a i j) as [[|]|], (get2 b i j) as [[|]|]; cbn;
    split; try tauto; try discriminate; intros [? ?]; discriminate.
Qed.

Lemma np_where_nil (m : ndarray bool) :
  (forall i j, get2 m i j <> Some true) -> np_where m = [].
Proof.
  intros H. destruct (np_where m) as [|[i j] l] eqn:E; [reflexivity|].
  exfalso. apply (H i j), in_np_where. rewrite E. left. reflexivity.
Qed.

(** States reached by method calls keep everything but the cursor (and,
    for the sectioned variant, the current angle with its cached mask). *)
Lemma F_steps_frame (it0 it : F.t) :
  F_steps it0 it -> exists c, it = F.set_current_ring it0 c.
Proof.
  induction 1 as [|s Hs (c & ->)].
  - exists (F.current_ring it0). symmetry. apply F_set_current_ring_eta.
  - destruct (Z.lt_ge_cases c (F._nbins it0)) as [Hlt|Hge].
    + rewrite F_next_ready by exact Hlt. exists (c + 1). reflexivity.
    + rewrite F_next_done by exact Hge. exists c. reflexivity.
Qed.

Lemma S_steps_frame (s0 s : SF.t) :
  S_steps s0 s ->
  (exists c, SF.base s = F.set_current_ring (SF.base s0) c) /\
  SF.phi s = SF.phi s0 /\ SF.d_angle s = SF.d_angle s0.
Proof.
  induction 1 as [|s Hs (Hfr & Hp & Hd)|s v Hs IH|s key Hs IH].
  - repeat split. exists (F.current_ring (SF.base s0)).
    symmetry. apply F_set_current_ring_eta.
  - destruct Hfr as (c & Eb).
    destruct (Z.lt_ge_cases (F.current_ring (SF.base s)) (F._nbins (SF.base s)))
      as [Hlt|Hge].
    + rewrite S_next_ready by exact Hlt. unfold SF.set_base.
      cbn [snd SF.base SF.phi SF.d_angle]. rewrite Eb.
      split; [eexists; reflexivity|]. split; assumption.
    + rewrite S_next_done by exact Hge. cbn [snd].
      split; [exists c; exact Eb|]. split; assumption.
  - exact IH.
  - rewrite S_getitem_eq. exact IH.
Qed.

(** X5.  In any state, [next] of the sectioned iterator moves the cursor
    exactly as [next] of the plain iterator does on the inherited part: both
    raise [StopIteration] and change nothing, or both return the same ring
    index and the same new cursor, and then every coordinate pair of the
    sectioned result is one of the plain result. *)
Theorem X5_sectioned_next_refines_plain (s : SF.t) :
  match SF.next s, F.next (SF.base s) with
  | (inr (c, k), s'), (inr (c0, k0), b') =>
      k = k0 /\ SF.base s' = b' /\ incl c c0 /\
      forall p, In p c <-> In p c0 /\ In p (np_where (SF.angle_sector s))
  | (inl e, s'), (inl e0, b') =>
      e = StopIteration /\ e0 = StopIteration /\ s' = s /\ b' = SF.base s
  | _, _ => False
  end.
Proof.
  destruct (Z.lt_ge_cases (F.current_ring (SF.base s)) (F._nbins (SF.base s)))
    as [Hlt|Hge].
  - rewrite S_next_ready, F_next_ready by exact Hlt.
    split; [reflexivity|]. split; [reflexivity|].
    unfold S_bin, F_bin. split.
    + intros p Hp. apply in_np_where_and in Hp. tauto.
    + intros p. apply in_np_where_and.
  - rewrite S_next_done, F_next_done by exact Hge. auto.
Qed.

(** X4.  Every coordinate pair [(i, j)] emitted for a ring, by the plain
    iterator or by the sectioned iterator in any state reached by method
    calls, satisfies [i < shape[1]] and [j < shape[0]]: it indexes the grid.
    On a square shape it therefore indexes the image as well. *)
Theorem X4_emitted_coordinates_index_the_grid
  (h w d_bin : Z) (d_angle : R) (it0 : F.t) (s0 : SF.t) :
  F.__init__ [h; w] d_bin = inr it0 ->
  SF.__init__ [h; w] d_bin d_angle = inr s0 ->
  (forall it k i j,
      F_steps it0 it -> In (i, j) (F_bin it k) ->
      (i < Z.to_nat w)%nat /\ (j < Z.to_nat h)%nat) /\
  (forall s k i j,
      S_steps s0 s -> In (i, j) (S_bin s k) ->
      (i < Z.to_nat w)%nat /\ (j < Z.to_nat h)%nat) /\
  (h = w ->
   (forall it k c, F_steps it0 it -> In c (F_bin it k) ->
                   valid_index [h; w] c = true) /\
   (forall s k c, S_steps s0 s -> In c (S_bin s k) ->
                  valid_index [h; w] c = true)).
Proof.
  intros HF HS.
  destruct (S_init_inv _ _ _ _ HS) as (it' & HF' & Eb & _).
  rewrite HF in HF'. injection HF' as <-.
  assert (HA : forall it k i j,
             F_steps it0 it -> In (i, j) (F_bin it k) ->
             (i < Z.to_nat w)%nat /\ (j < Z.to_nat h)%nat).
  { intros it k i j Hst Hin. destruct (F_steps_frame _ _ Hst) as (c & ->).
    rewrite F_bin_set_current_ring in Hin.
    exact (F_bin_index_bounds _ _ _ _ _ _ _ HF Hin). }
  assert (HB : forall s k i j,
             S_steps s0 s -> In (i, j) (S_bin s k) ->
             (i < Z.to_nat w)%nat /\ (j < Z.to_nat h)%nat).
  { intros s k i j Hst Hin.
    destruct (S_steps_frame _ _ Hst) as ((c & Es) & _).
    unfold S_bin in Hin. apply in_np_where_and in Hin. destruct Hin as [Hin _].
    rewrite Es, Eb in Hin.
    exact (F_bin_index_bounds _ _ _ _ k _ _ HF Hin). }
  split; [exact HA|]. split; [exact HB|].
  intros <-. split.
  - intros it k [i j] Hst Hin. destruct (HA _ _ _ _ Hst Hin).
    unfold valid_index. cbn [fst snd nth].
    apply andb_true_iff. split; apply Z.ltb_lt; lia.
  - intros s k [i j] Hst Hin. destruct (HB _ _ _ _ Hst Hin).
    unfold valid_index. cbn [fst snd nth].
    apply andb_true_iff. split; apply Z.ltb_lt; lia.
Qed.

Lemma X4_witness :
  exists it0 s0,
    F.__init__ [4; 4] 1 = inr it0 /\
    SF.__init__ [4; 4] 1 90 = inr s0 /\
    forall it k i j,
      F_steps it0 it -> In (i, j) (F_bin it k) ->
      (i < Z.to_nat 4)%nat /\ (j < Z.to_nat 4)%nat.
Proof.
  eexists. eexists. split; [reflexivity|]. split; [reflexivity|].
  exact (proj1 (X4_emitted_coordinates_index_the_grid 4 4 1 90 _ _
                  eq_refl eq_refl)).
Defined.

(** ** One sector of 360 degrees *)

(** X6.  With [d_angle = 360], [shape[0] >= 0] and [d_bin >= 1], once the
    current angle has been assigned 0 a full iteration of the sectioned
    iterator produces exactly the items of a full iteration of the plain
    iterator built from the same shape and [d_bin]. *)
Theorem X6_sectioned_360_equals_plain_after_set_angle
  (h w d_bin : Z) (it : F.t) (s : SF.t) (fuel : nat) :
  0 <= h -> 1 <= d_bin ->
  F.__init__ [h; w] d_bin = inr it ->
  SF.__init__ [h; w] d_bin 360 = inr s ->
  (Z.to_nat (h / (2 * d_bin)) < fuel)%nat ->
  exists items it' s',
    for_loop F.__iter__ F.next fuel it = Some (items, it') /\
    for_loop SF.__iter__ SF.next fuel (snd (SF.set_angle 0 s)) =
      Some (items, s') /\
    length items = Z.to_nat (h / (2 * d_bin)).
Proof.
  intros Hh Hd HF HS Hf.
  destruct (F_init_fields _ _ _ _ HF) as (_ & En & Ec & _).
  destruct (S_init_inv _ _ _ _ HS) as (it' & HF' & Eb & _).
  rewrite HF in HF'. injection HF' as <-.
  assert (Hn : 0 <= h / (2 * d_bin)) by (apply Z.div_pos; lia).
  set (s1 := snd (SF.set_angle 0 s)).
  assert (Eb1 : SF.base s1 = it) by exact Eb.
  do 3 eexists. unfold for_loop, F.__iter__, SF.__iter__, get_self.
  split; [|split].
  - apply F_drain; [exact Ec|lia|rewrite En; exact Hf].
  - rewrite S_drain by (rewrite Eb1, ?En, ?Ec; lia).
    rewrite Eb1. f_equal. f_equal. apply map_ext. intros k.
    f_equal. apply (sectioned_360_after_set_angle _ _ _ _ _ _ HF HS).
  - rewrite length_map, length_seq, En. reflexivity.
Qed.

Lemma X6_witness :
  exists it s items it' s',
    0 <= 4 /\ 1 <= 1 /\
    F.__init__ [4; 4] 1 = inr it /\
    SF.__init__ [4; 4] 1 360 = inr s /\
    (Z.to_nat (4 / (2 * 1)) < 3)%nat /\
    for_loop F.__iter__ F.next 3 it = Some (items, it') /\
    for_loop SF.__iter__ SF.next 3 (snd (SF.set_angle 0 s)) = Some (items, s').
Proof.
  destruct (X6_sectioned_360_equals_plain_after_set_angle 4 4 1 _ _ 3
              ltac:(lia) ltac:(lia) eq_refl eq_refl ltac:(cbn; lia))
    as (items & it' & s' & H1 & H2 & _).
  eexists. eexists. exists items, it', s'.
  split; [lia|]. split; [lia|]. split; [reflexivity|]. split; [reflexivity|].
  split; [cbn; lia|]. split; [exact H1|exact H2].
Defined.

(** ** The angle field and its sectors *)

Lemma phi_defined (h w d_bin : Z) (d_angle : R) (s : SF.t) (i j : nat) :
  SF.__init__ [h; w] d_bin d_angle = inr s ->
  (i < Z.to_nat w)%nat -> (j < Z.to_nat h)%nat ->
  exists v, get2 (SF.phi s) i j = Some v.
Proof.
  intros Hinit Hi Hj. rewrite (get2_phi _ _ _ _ _ _ _ Hinit).
  unfold pixel_phi, centred.
  destruct (Nat.ltb_spec i (Z.to_nat w)); [|lia].
  destruct (Nat.ltb_spec j (Z.to_nat h)); [|lia]. eauto.
Qed.

(** X8.  For an angle step between 0 and 360 degrees:
    [get_angle_sector (0, pi)] is true at every cell of the grid, the sector
    [[0, pi)] and its mirror [[pi, 2 pi)] making up the whole circle; and
    for a lower bound [phi_min >= pi] the mirrored half of the mask is
    empty, so that the mask is true exactly where
    [phi_min <= Phi < phi_max]. *)
Theorem X8_half_turn_sector_and_empty_mirror
  (h w d_bin : Z) (d_angle : R) (s : SF.t) :
  SF.__init__ [h; w] d_bin d_angle = inr s ->
  (0 <= d_angle <= 360)%R ->
  (forall i j, (i < Z.to_nat w)%nat -> (j < Z.to_nat h)%nat ->
               get2 (SF.get_angle_sector s 0 PI) i j = Some true) /\
  (forall phi_min phi_max i j,
      (PI <= phi_min)%R ->
      (get2 (SF.get_angle_sector s phi_min phi_max) i j = Some true <->
       exists v, get2 (SF.phi s) i j = Some v /\ (phi_min <= v < phi_max)%R)).
Proof.
  intros Hinit Hd. split.
  - intros i j Hi Hj.
    destruct (phi_defined _ _ _ _ _ _ _ Hinit Hi Hj) as (v & Ev).
    pose proof (phi_range _ _ _ _ _ _ _ _ Hinit Hd Ev) as Hv.
    apply angle_sector_true. exists v. split; [exact Ev|].
    destruct (Rlt_le_dec v PI); [left|right]; lra.
  - intros a b i j Ha. rewrite angle_sector_true. split.
    + intros (v & Ev & [H|H]); exists v; (split; [exact Ev|]); [exact H|].
      pose proof (phi_range _ _ _ _ _ _ _ _ Hinit Hd Ev). lra.
    + intros (v & Ev & H). exists v. auto.
Qed.

Lemma X8_witness :
  exists s,
    SF.__init__ [4; 4] 1 90 = inr s /\ (0 <= 90 <= 360)%R /\
    forall i j, (i < Z.to_nat 4)%nat -> (j < Z.to_nat 4)%nat ->
                get2 (SF.get_angle_sector s 0 PI) i j = Some true.
Proof.
  eexists. split; [reflexivity|]. split; [lra|].
  exact (proj1 (X8_half_turn_sector_and_empty_mirror 4 4 1 90 _
                  eq_refl ltac:(lra))).
Defined.

(** ** Degenerate and adjacent intervals *)

(** X9.  A degenerate interval is not an error: [__getitem__] with
    [ring_stop <= ring_start] or [angle_max <= angle_min] returns the empty
    coordinate list, in any state and without changing it; likewise
    [get_points_on_ring] with [ring_stop <= ring_start] and
    [get_angle_sector] with [phi_max <= phi_min] are nowhere true. *)
Theorem X9_degenerate_intervals_are_empty
  (s : SF.t) (ring_start ring_stop angle_min angle_max : R) :
  (ring_stop <= ring_start)%R \/ (angle_max <= angle_min)%R ->
  SF.__getitem__ (ring_start, ring_stop, angle_min, angle_max) s = (inr [], s) /\
  ((ring_stop <= ring_start)%R ->
   np_where (F.get_points_on_ring (SF.base s) ring_start ring_stop) = []) /\
  ((angle_max <= angle_min)%R ->
   np_where (SF.get_angle_sector s angle_min angle_max) = []).
Proof.
  intros H.
  assert (HR : (ring_stop <= ring_start)%R ->
               np_where (F.get_points_on_ring (SF.base s) ring_start ring_stop)
               = []).
  { intros Hr. apply np_where_nil. intros i j Hc.
    apply points_on_ring_true in Hc. destruct Hc as (v & _ & Hv). lra. }
  assert (HA : (angle_max <= angle_min)%R ->
               np_where (SF.get_angle_sector s angle_min angle_max) = []).
  { intros Ha. apply np_where_nil. intros i j Hc.
    apply angle_sector_true in Hc. destruct Hc as (v & _ & [Hv|Hv]); lra. }
  split; [|split; assumption].
  rewrite S_getitem_eq. cbn [fst snd]. f_equal. f_equal.
  apply np_where_nil. intros i j Hc.
  assert (Hin : In (i, j)
                  (np_where
                     (zip2d andb
                        (F.get_points_on_ring (SF.base s) ring_start ring_stop)
                        (SF.get_angle_sector s angle_min angle_max))))
    by (apply in_np_where; exact Hc).
  apply in_np_where_and in Hin. destruct Hin as [H1 H2].
  destruct H as [H|H]; [rewrite (HR H) in H1|rewrite (HA H) in H2];
    contradiction.
Qed.

Lemma X9_witness :
  exists s,
    SF.__init__ [4; 4] 1 90 = inr s /\
    ((2 <= 3)%R \/ (90 <= 0)%R) /\
    SF.__getitem__ (3, 2, 0, 90)%R s = (inr [], s).
Proof.
  eexists. split; [reflexivity|].
  split; [left; lra|].
  exact (proj1 (X9_degenerate_intervals_are_empty _ 3 2 0 90
                  ltac:(left; lra))).
Defined.

(** X10.  Adjacent rings compose without gap or overlap: for
    [a <= b <= c], in any state, a cell is in [get_points_on_ring (a, c)]
    exactly when it is in [get_points_on_ring (a, b)] or in
    [get_points_on_ring (b, c)], and never in both. *)
Theorem X10_adjacent_rings_compose (it : F.t) (a b c : R) (p : nat * nat) :
  (a <= b <= c)%R ->
  (In p (np_where (F.get_points_on_ring it a c)) <->
   In p (np_where (F.get_points_on_ring it a b)) \/
   In p (np_where (F.get_points_on_ring it b c))) /\
  ~ (In p (np_where (F.get_points_on_ring it a b)) /\
     In p (np_where (F.get_points_on_ring it b c))).
Proof.
  intros Habc. destruct p as [i j].
  rewrite !in_np_where, !points_on_ring_true. split.
  - split.
    + intros (v & Ev & Hv).
      destruct (Rlt_le_dec v b); [left|right]; exists v; (split; [exact Ev|lra]).
    + intros [(v & Ev & Hv)|(v & Ev & Hv)]; exists v; (split; [exact Ev|lra]).
  - intros [(v & Ev & Hv) (v' & Ev' & Hv')].
    rewrite Ev in Ev'. injection Ev' as <-. lra.
Qed.

Lemma X10_witness :
  exists it,
    F.__init__ [4; 4] 1 = inr it /\ (0 <= 1 <= 2)%R /\
    (In (2%nat, 3%nat) (np_where (F.get_points_on_ring it 0 2)) <->
     In (2%nat, 3%nat) (np_where (F.get_points_on_ring it 0 1)) \/
     In (2%nat, 3%nat) (np_where (F.get_points_on_ring it 1 2))).
Proof.
  eexists. split; [reflexivity|]. split; [lra|].
  exact (proj1 (X10_adjacent_rings_compose _ 0 1 2 (2%nat, 3%nat)
                  ltac:(lra))).
Defined.

(** ** Construction: errors and empty iterators *)

(** X12.  The constructors fail in exactly two ways, checked in this order:
    [AssertionError] when the shape does not have two elements (whatever
    [d_bin] is, 0 included), and [ZeroDivisionError] when the shape has two
    elements and [d_bin = 0].  In every other case both constructors
    succeed, and the sectioned one builds its inherited part exactly as the
    plain constructor does. *)
Theorem X12_constructor_errors (shape : list Z) (d_bin : Z) (d_angle : R) :
  match F.__init__ shape d_bin with
  | inl AssertionError => length shape <> 2%nat
  | inl ZeroDivisionError => length shape = 2%nat /\ d_bin = 0
  | inl StopIteration => False
  | inr it => length shape = 2%nat /\ d_bin <> 0
  end /\
  match SF.__init__ shape d_bin d_angle, F.__init__ shape d_bin with
  | inl e, inl e0 => e = e0
  | inr s, inr it => SF.base s = it
  | _, _ => False
  end.
Proof.
  split.
  - unfold F.__init__.
    destruct (Nat.eqb_spec (length shape) 2) as [E|E]; cbn [negb]; [|exact E].
    unfold py_div. destruct (Z.eqb_spec (2 * d_bin) 0) as [E0|E0].
    + cbn. split; [exact E|lia].
    + cbn [rbind ok]. destruct (np_meshgrid _ _). split; [exact E|lia].
  - destruct (SF.__init__ shape d_bin d_angle) as [e|s] eqn:ES.
    + unfold SF.__init__ in ES.
      destruct (F.__init__ shape d_bin) as [e0|it]; cbn [rbind] in ES.
      * congruence.
      * destruct (F.meshgrid it). discriminate.
    + destruct (S_init_inv _ _ _ _ ES) as (it & -> & Eb & _). exact Eb.
Qed.

(** X11.  An iterator with nothing to yield.  For [shape[0] >= 0], when
    [d_bin] is negative or [shape[0] < 2 * d_bin], construction succeeds
    with [nbins <= 0]; the first [next] raises [StopIteration], and a [for]
    loop over the iterator collects no item and leaves it unchanged.  For a
    negative [d_bin] the radii array is empty as well. *)
Theorem X11_empty_iterator (h w d_bin : Z) (it : F.t) :
  0 <= h -> d_bin < 0 \/ h < 2 * d_bin ->
  F.__init__ [h; w] d_bin = inr it ->
  F.nbins it <= 0 /\
  F.next it = (inl StopIteration, it) /\
  (forall fuel, for_loop F.__iter__ F.next (S fuel) it = Some ([], it)) /\
  (d_bin < 0 -> F.radii it = []).
Proof.
  intros Hh Hcase Hinit.
  destruct (F_init_fields _ _ _ _ Hinit) as (_ & En & Ec & _ & Er & Hd0).
  assert (Hn : F.nbins it <= 0).
  { unfold F.nbins. rewrite En.
    destruct (Z.lt_ge_cases d_bin 0) as [Hneg|Hpos].
    - pose proof (Z.div_mod h (2 * d_bin) ltac:(lia)) as Hdm.
      pose proof (Z.mod_neg_bound h (2 * d_bin) ltac:(lia)) as Hmb. nia.
    - destruct Hcase as [|Hlt]; [lia|]. rewrite Z.div_small; lia. }
  assert (Hnext : F.next it = (inl StopIteration, it))
    by (apply F_next_done; unfold F.nbins in Hn; lia).
  split; [exact Hn|]. split; [exact Hnext|]. split.
  - intros fuel. unfold for_loop, F.__iter__, get_self. cbn [drain].
    rewrite Hnext. reflexivity.
  - intros Hneg. unfold F.radii. rewrite Er.
    apply length_zero_iff_nil. rewrite length_np_arange.
    assert (Hq : 0 <= h / 2) by (apply Z.div_pos; lia).
    pose proof (Z.div_mod (0 - h / 2) d_bin ltac:(lia)) as Hdm.
    pose proof (Z.mod_neg_bound (0 - h / 2) d_bin ltac:(lia)) as Hmb.
    assert (0 <= (0 - h / 2) / d_bin) by nia. lia.
Qed.

Lemma X11_witness :
  exists it,
    0 <= 4 /\ (-1 < 0 \/ 4 < 2 * -1) /\
    F.__init__ [4; 4] (-1) = inr it /\
    F.nbins it <= 0 /\ F.next it = (inl StopIteration, it).
Proof.
  eexists. split; [lia|]. split; [left; lia|]. split; [reflexivity|].
  pose proof (X11_empty_iterator 4 4 (-1) _ ltac:(lia) ltac:(left; lia)
                eq_refl) as H.
  split; [exact (proj1 H)|exact (proj1 (proj2 H))].
Defined.

(** ** Radii against ring indices, and the centre *)

(** X13.  With [shape[0] >= 0] and [d_bin >= 1], every ring index [k] in
    [[0, nbins)] is a valid index into the radii array, and [radii[k]] is
    [k * d_bin], the lower bound that [next] uses for ring [k]. *)
Theorem X13_radii_indexed_by_ring (h w d_bin : Z) (it : F.t) (k : Z) :
  0 <= h -> 1 <= d_bin ->
  F.__init__ [h; w] d_bin = inr it ->
  0 <= k < F.nbins it ->
  nth_error (F.radii it) (Z.to_nat k) = Some (k * d_bin) /\
  (F.nbins it <= Z.of_nat (length (F.radii it)) <= F.nbins it + 1).
Proof.
  intros Hh Hd Hinit Hk.
  destruct (F_init_fields _ _ _ _ Hinit) as (_ & En & _ & _ & Er & _).
  unfold F.nbins, F.radii in *. rewrite En in *. rewrite Er.
  assert (Hq : 0 <= h / 2) by (apply Z.div_pos; lia).
  assert (Hlen : Z.of_nat (length (np_arange 0 (h / 2) d_bin)) =
                 h / (2 * d_bin) + (if (h / 2) mod d_bin =? 0 then 0 else 1)).
  { rewrite length_np_arange, ceil_div_pos by lia.
    rewrite <- (Z.div_div h 2 d_bin) by lia.
    pose proof (Z.div_pos (h / 2) d_bin Hq ltac:(lia)).
    destruct ((h / 2) mod d_bin =? 0); lia. }
  split.
  - rewrite nth_error_np_arange.
    destruct (Nat.ltb_spec (Z.to_nat k) (length (np_arange 0 (h / 2) d_bin)))
      as [_|Hge].
    + f_equal. lia.
    + destruct ((h / 2) mod d_bin =? 0); lia.
  - destruct ((h / 2) mod d_bin =? 0); lia.
Qed.

Lemma X13_witness :
  exists it,
    0 <= 6 /\ 1 <= 2 /\ F.__init__ [6; 6] 2 = inr it /\
    0 <= 0 < F.nbins it /\
    nth_error (F.radii it) (Z.to_nat 0) = Some (0 * 2).
Proof.
  destruct (F_init_ok 6 6 2 ltac:(lia)) as (it & E).
  assert (Hn : 0 <= 0 < F.nbins it).
  { destruct (F_init_fields _ _ _ _ E) as (_ & En & _).
    unfold F.nbins. rewrite En. cbn. lia. }
  exists it. split; [lia|]. split; [lia|]. split; [exact E|].
  split; [exact Hn|].
  exact (proj1 (X13_radii_indexed_by_ring 6 6 2 it 0
                  ltac:(lia) ltac:(lia) E Hn)).
Defined.

(** X14.  With positive [shape[0]], [shape[1]] and [d_bin], ring 0 holds
    the centre cell, at array index
    [(floor (shape[1] / 2), floor (shape[0] / 2))], whose centred
    coordinates are [(0, 0)]; with [d_bin = 1] ring 0 is that cell alone. *)
Theorem X14_ring_zero_holds_the_centre (h w d_bin : Z) (it : F.t) :
  1 <= h -> 1 <= w -> 1 <= d_bin ->
  F.__init__ [h; w] d_bin = inr it ->
  In (Z.to_nat (w / 2), Z.to_nat (h / 2)) (F_bin it 0) /\
  (d_bin = 1 ->
   forall c, In c (F_bin it 0) <-> c = (Z.to_nat (w / 2), Z.to_nat (h / 2))).
Proof.
  intros Hh Hw Hd Hinit.
  assert (Hw2 : 0 <= w / 2 < w) by (split; [apply Z.div_pos|apply Z.div_lt_upper_bound]; lia).
  assert (Hh2 : 0 <= h / 2 < h) by (split; [apply Z.div_pos|apply Z.div_lt_upper_bound]; lia).
  assert (Cw : centred w (Z.to_nat (w / 2)) = Some 0).
  { unfold centred. destruct (Nat.ltb_spec (Z.to_nat (w / 2)) (Z.to_nat w));
      [f_equal|]; lia. }
  assert (Ch : centred h (Z.to_nat (h / 2)) = Some 0).
  { unfold centred. destruct (Nat.ltb_spec (Z.to_nat (h / 2)) (Z.to_nat h));
      [f_equal|]; lia. }
  assert (Hc : In (Z.to_nat (w / 2), Z.to_nat (h / 2)) (F_bin it 0)).
  { apply (in_F_bin_int _ _ _ _ _ _ _ Hinit Hd (Z.le_refl 0)).
    exists 0, 0. split; [exact Cw|]. split; [exact Ch|].
    rewrite !Z.pow_2_r. nia. }
  split; [exact Hc|].
  intros -> [i j]. split.
  - intros Hin.
    apply (in_F_bin_int _ _ _ _ _ _ _ Hinit Hd (Z.le_refl 0)) in Hin.
    destruct Hin as (x & y & Ex & Ey & Hxy).
    rewrite !Z.pow_2_r in Hxy.
    assert (x = 0 /\ y = 0) as [-> ->] by nia.
    unfold centred in Ex, Ey.
    destruct (Nat.ltb_spec i (Z.to_nat w)); [|discriminate].
    destruct (Nat.ltb_spec j (Z.to_nat h)); [|discriminate].
    injection Ex as Ex. injection Ey as Ey. f_equal; lia.
  - intros E. rewrite E. exact Hc.
Qed.

Lemma X14_witness :
  exists it,
    1 <= 8 /\ 1 <= 8 /\ 1 <= 1 /\ F.__init__ [8; 8] 1 = inr it /\
    In (Z.to_nat (8 / 2), Z.to_nat (8 / 2)) (F_bin it 0).
Proof.
  eexists. split; [lia|]. split; [lia|]. split; [lia|].
  split; [reflexivity|].
  exact (proj1 (X14_ring_zero_holds_the_centre 8 8 1 _
                  ltac:(lia) ltac:(lia) ltac:(lia) eq_refl)).
Defined.

(** ** Single pass *)

Lemma F_drain_from (it : F.t) (fuel : nat) :
  F.current_ring it <= F._nbins it ->
  (Z.to_nat (F._nbins it - F.current_ring it) < fuel)%nat ->
  drain F.next fuel it =
  Some (map (fun i => (F_bin it (F.current_ring it + Z.of_nat i),
                       F.current_ring it + Z.of_nat i))
            (seq 0 (Z.to_nat (F._nbins it - F.current_ring it))),
        F.set_current_ring it (F._nbins it)).
Proof.
  intros Hc Hf.
  rewrite (drain_cursor F.next F.current_ring F._nbins
             (fun s => (F_bin s (F.current_ring s), F.current_ring s))
             (fun s => F.set_current_ring s (F.current_ring s + 1))
             F_next_ready F_next_done
             (fun s => eq_refl) (fun s => eq_refl)
             (Z.to_nat (F._nbins it - F.current_ring it)) it fuel) by lia.
  rewrite F_iter_advance. f_equal. f_equal.
  - apply map_ext. intros i. rewrite F_iter_advance. reflexivity.
  - f_equal. lia.
Qed.

(** X15.  The iterators are single-pass, [__iter__] returning the object
    itself with its cursor where it is.  For [shape[0] >= 0] and
    [d_bin >= 1], a [for] loop over a plain iterator in any state reached by
    method calls, with the cursor at [c], collects the rings
    [c, c + 1, ..., nbins - 1] and leaves the cursor at [nbins]; a second
    loop over the same object collects nothing. *)
Theorem X15_for_loop_resumes_and_is_single_pass
  (h w d_bin : Z) (it0 it : F.t) (fuel : nat) :
  0 <= h -> 1 <= d_bin ->
  F.__init__ [h; w] d_bin = inr it0 ->
  F_steps it0 it ->
  (Z.to_nat (F.nbins it0 - F.current_ring it) < fuel)%nat ->
  exists it',
    for_loop F.__iter__ F.next fuel it =
      Some (map (fun i => (F_bin it0 (F.current_ring it + Z.of_nat i),
                           F.current_ring it + Z.of_nat i))
                (seq 0 (Z.to_nat (F.nbins it0 - F.current_ring it))), it') /\
    F.current_ring it' = F.nbins it0 /\
    forall fuel', for_loop F.__iter__ F.next (S fuel') it' = Some ([], it').
Proof.
  intros Hh Hd Hinit Hst Hf.
  destruct (F_init_fields _ _ _ _ Hinit) as (_ & En & Ec & _).
  assert (Hn : 0 <= F._nbins it0) by (rewrite En; apply Z.div_pos; lia).
  destruct (F_steps_inv it0 it ltac:(lia) Hst) as ((c & ->) & Hc).
  unfold F.nbins in *. cbn [F.current_ring F.set_current_ring] in *.
  exists (F.set_current_ring it0 (F._nbins it0)).
  unfold for_loop, F.__iter__, get_self. split; [|split].
  - rewrite F_drain_from by (cbn; lia). reflexivity.
  - reflexivity.
  - intros fuel'. cbn [drain].
    rewrite F_next_done by (cbn; lia). reflexivity.
Qed.

Lemma X15_witness :
  exists it0 it',
    0 <= 4 /\ 1 <= 1 /\ F.__init__ [4; 4] 1 = inr it0 /\
    F_steps it0 (snd (F.next it0)) /\
    for_loop F.__iter__ F.next 3 (snd (F.next it0)) =
      Some ([(F_bin it0 1, 1)], it').
Proof.
  destruct (F_init_ok 4 4 1 ltac:(lia)) as (it0 & E).
  destruct (F_init_fields _ _ _ _ E) as (_ & En & Ec & _).
  assert (E1 : F.current_ring (snd (F.next it0)) = 1)
    by (rewrite F_next_ready by (rewrite Ec, En; reflexivity);
        cbn; rewrite Ec; reflexivity).
  destruct (X15_for_loop_resumes_and_is_single_pass 4 4 1 it0
              (snd (F.next it0)) 3 ltac:(lia) ltac:(lia) E
              (F_steps_next _ _ (F_steps_refl _))
              ltac:(unfold F.nbins; rewrite E1, En; cbn; lia))
    as (it' & H & _).
  exists it0, it'. split; [lia|]. split; [lia|]. split; [exact E|].
  split; [apply F_steps_next, F_steps_refl|].
  rewrite H. unfold F.nbins. rewrite E1, En. reflexivity.
Defined.

(** ** Square shapes, and the half-turn query *)

(** X17.  On a square shape the radius field is symmetric, so each ring of
    the plain iterator is closed under swapping the two indices: the pair
    [(i, j)] is emitted for ring [k] exactly when [(j, i)] is.  Which of the
    two grid axes runs along the rows therefore does not affect the set of
    coordinates emitted for a square image. *)
Theorem X17_square_rings_are_transpose_invariant
  (n d_bin : Z) (it : F.t) (k : Z) (i j : nat) :
  F.__init__ [n; n] d_bin = inr it ->
  In (i, j) (F_bin it k) <-> In (j, i) (F_bin it k).
Proof.
  intros Hinit. unfold F_bin, ring_mask.
  rewrite !in_np_where, !get2_points_on_ring, !(get2_r _ _ _ _ Hinit).
  assert (E : pixel_r n n i j = pixel_r n n j i).
  { unfold pixel_r. destruct (centred n i) as [x|], (centred n j) as [y|];
      try reflexivity. do 3 f_equal. ring. }
  rewrite E. reflexivity.
Qed.

Lemma X17_witness :
  exists it,
    F.__init__ [4; 4] 1 = inr it /\
    (In (2%nat, 3%nat) (F_bin it 1) <-> In (3%nat, 2%nat) (F_bin it 1)).
Proof.
  eexists. split; [reflexivity|].
  apply (X17_square_rings_are_transpose_invariant 4 1 _ 1 2 3 eq_refl).
Defined.

(** X18.  For an angle step between 0 and 360 degrees, the random-access
    query over the half turn [[0, pi)] (the angle bounds being taken in
    radians, as [__getitem__] passes them on) returns the whole ring: the
    coordinates of [get_points_on_ring (ring_start, ring_stop)], in the same
    order, whatever the current angle is. *)
Theorem X18_getitem_half_turn_is_the_ring
  (h w d_bin : Z) (d_angle : R) (s : SF.t) (ring_start ring_stop : R) :
  SF.__init__ [h; w] d_bin d_angle = inr s ->
  (0 <= d_angle <= 360)%R ->
  SF.__getitem__ (ring_start, ring_stop, 0%R, PI) s =
  (inr (np_where (F.get_points_on_ring (SF.base s) ring_start ring_stop)), s).
Proof.
  intros Hinit Hd.
  destruct (S_init_inv _ _ _ _ Hinit) as (it & HF & Eb & _).
  rewrite S_getitem_eq. cbn [fst snd]. do 3 f_equal.
  apply get2_ext.
  - unfold zip2d at 1. rewrite length_zip_with.
    rewrite length_points_on_ring, length_angle_sector, Eb.
    rewrite (length_r _ _ _ _ HF), (length_phi _ _ _ _ _ Hinit). lia.
  - intros i j. rewrite get2_zip2d, get2_angle_sector.
    rewrite get2_points_on_ring, Eb, (get2_r _ _ _ _ HF).
    destruct (get2 (SF.phi s) i j) as [v|] eqn:Ev.
    + pose proof (phi_range _ _ _ _ _ _ _ _ Hinit Hd Ev) as Hv.
      destruct (pixel_r h w i j); [|reflexivity]. cbn [option_map].
      replace (Rgeb v 0 && Rltb v PI || Rgeb v (0 + PI) && Rltb v (PI + PI))
        with true; [now rewrite andb_true_r|].
      symmetry. apply orb_true_iff. rewrite !in_range_true.
      destruct (Rlt_le_dec v PI); [left|right]; lra.
    + rewrite (get2_phi _ _ _ _ _ _ _ Hinit) in Ev.
      unfold pixel_phi in Ev. unfold pixel_r.
      destruct (centred w i); [|reflexivity].
      destruct (centred h j); [discriminate|reflexivity].
Qed.

Lemma X18_witness :
  exists s,
    SF.__init__ [4; 4] 1 90 = inr s /\ (0 <= 90 <= 360)%R /\
    SF.__getitem__ (1, 2, 0, PI)%R s =
    (inr (np_where (F.get_points_on_ring (SF.base s) 1 2)), s).
Proof.
  eexists. split; [reflexivity|]. split; [lra|].
  apply (X18_getitem_half_turn_is_the_ring 4 4 1 90 _ 1 2 eq_refl).
  lra.
Defined.

(** * The ring mask, the cursor on unvalidated parameters, the angle field *)

(** C6.  For a constructed geometry and all real [ringStart], [ringStop],
    the mask [get_points_on_ring ringStart ringStop] has a cell wherever the
    radius field [R] has one, and it is true at a pixel exactly when
    [ringStart <= R < ringStop] holds for the value that the radius field
    stores for that pixel (inclusive low, exclusive high).  For integral
    bounds [a, b >= 0] this is the exact test [a^2 <= x^2 + y^2 < b^2] on
    the centred coordinates of the pixel.  Hence, for [d_bin >= 1], the
    masks of two distinct rings [k], [k'] in [[0, nbins)] are never both
    true at a pixel. *)
Theorem C6_points_on_ring_half_open (h w d_bin : Z) (it : F.t) :
  F.__init__ [h; w] d_bin = inr it ->
  (forall a b i j,
      get2 (F.get_points_on_ring it a b) i j =
      option_map (fun v => Rgeb v a && Rltb v b) (get2 (F.r it) i j)) /\
  (forall a b i j,
      get2 (F.get_points_on_ring it a b) i j = Some true <->
      exists v, get2 (F.r it) i j = Some v /\ (a <= v < b)%R) /\
  (forall (a b : Z) i j,
      0 <= a -> 0 <= b ->
      (get2 (F.get_points_on_ring it (IZR a) (IZR b)) i j = Some true <->
       exists x y,
         centred w i = Some x /\ centred h j = Some y /\
         a ^ 2 <= x ^ 2 + y ^ 2 < b ^ 2)) /\
  (1 <= d_bin ->
   forall k k' i j,
     0 <= k < F.nbins it -> 0 <= k' < F.nbins it -> k <> k' ->
     ~ (get2 (F.get_points_on_ring it (IZR (k * d_bin))
                                      (IZR ((k + 1) * d_bin))) i j = Some true /\
        get2 (F.get_points_on_ring it (IZR (k' * d_bin))
                                      (IZR ((k' + 1) * d_bin))) i j = Some true)).
Proof.
  intros Hinit. split; [|split; [|split]].
  - intros. apply get2_points_on_ring.
  - intros. apply points_on_ring_true.
  - intros a b i j Ha Hb.
    rewrite points_on_ring_true, (get2_r _ _ _ _ Hinit). unfold pixel_r.
    destruct (centred w i) as [x|].
    + destruct (centred h j) as [y|].
      * split.
        -- intros (v & E & Hv). injection E as <-.
           exists x, y. split; [reflexivity|]. split; [reflexivity|].
           apply sqrt_range_int in Hv; [exact Hv|lia|lia|nia].
        -- intros (x' & y' & Ex & Ey & Hxy).
           injection Ex as <-. injection Ey as <-.
           eexists. split; [reflexivity|].
           apply sqrt_range_int; [lia|lia|nia|exact Hxy].
      * split; [intros (v & E & _); discriminate|].
        intros (x' & y' & _ & Ey & _). discriminate.
    + split; [intros (v & E & _); discriminate|].
      intros (x' & y' & Ex & _). discriminate.
  - intros Hd k k' i j _ _ Hne.
    destruct (F_init_fields _ _ _ _ Hinit) as (Ed & _).
    pose proof (ring_masks_disjoint it k k' i j) as H1.
    pose proof (ring_masks_disjoint it k' k i j) as H2.
    unfold ring_mask in H1, H2. rewrite Ed in H1, H2.
    destruct (Z.lt_total k k') as [Hlt|[Heq|Hgt]]; [|contradiction|].
    + apply H1; lia.
    + intros [Ha Hb]. apply H2; [lia|lia|tauto].
Qed.

Lemma C6_witness :
  exists it,
    F.__init__ [4; 4] 1 = inr it /\
    forall a b i j,
      get2 (F.get_points_on_ring it a b) i j = Some true <->
      exists v, get2 (F.r it) i j = Some v /\ (a <= v < b)%R.
Proof.
  eexists. split; [reflexivity|].
  exact (proj1 (proj2 (C6_points_on_ring_half_open 4 4 1 _ eq_refl))).
Defined.

(** The cursor claim fails without the validity conditions: [d_bin = -1]
    is accepted by the constructor, and the fresh iterator on shape
    [(4, 4)] has [current_ring = 0] above [nbins = -2]; its first [next]
    raises [StopIteration], so a full iteration has no step. *)
Lemma C5_counterexample :
  exists it,
    F.__init__ [4; 4] (-1) = inr it /\
    F.current_ring it = 0 /\ F.nbins it = -2 /\
    ~ (0 <= F.current_ring it <= F.nbins it) /\
    F.next it = (inl StopIteration, it) /\
    for_loop F.__iter__ F.next 1 it = Some ([], it).
Proof.
  destruct (F_init_ok 4 4 (-1) ltac:(lia)) as (it & E). exists it.
  destruct (F_init_fields _ _ _ _ E) as (_ & En & Ec & _).
  assert (Hn : F.nbins it = -2) by (unfold F.nbins; rewrite En; reflexivity).
  assert (Hnext : F.next it = (inl StopIteration, it))
    by (apply F_next_done; unfold F.nbins in Hn; lia).
  split; [exact E|]. split; [exact Ec|]. split; [exact Hn|].
  split; [lia|]. split; [exact Hnext|].
  unfold for_loop, F.__iter__, get_self. cbn [drain].
  rewrite Hnext. reflexivity.
Qed.

(** X7.  For an angle step between 0 and 360 degrees, every cell of the
    angle field built by the constructor lies in [[0, 2 pi)]; and in every
    state reached by method calls ([next], assignment to the angle,
    [__getitem__]) the angle field is the one built by the constructor. *)
Theorem X7_angle_field_range
  (h w d_bin : Z) (d_angle : R) (s0 s : SF.t) :
  SF.__init__ [h; w] d_bin d_angle = inr s0 ->
  (0 <= d_angle <= 360)%R ->
  S_steps s0 s ->
  SF.phi s = SF.phi s0 /\
  forall i j v, get2 (SF.phi s) i j = Some v -> (0 <= v < 2 * PI)%R.
Proof.
  intros Hinit Hd Hst.
  destruct (S_steps_frame _ _ Hst) as (_ & Ep & _).
  split; [exact Ep|].
  intros i j v Hv. rewrite Ep in Hv.
  exact (phi_range _ _ _ _ _ _ _ _ Hinit Hd Hv).
Qed.

Lemma X7_witness :
  exists s0,
    SF.__init__ [4; 4] 1 90 = inr s0 /\ (0 <= 90 <= 360)%R /\
    S_steps s0 (snd (SF.set_angle 45 (snd (SF.next s0)))) /\
    SF.phi (snd (SF.set_angle 45 (snd (SF.next s0)))) = SF.phi s0 /\
    forall i j v,
      get2 (SF.phi (snd (SF.set_angle 45 (snd (SF.next s0))))) i j = Some v ->
      (0 <= v < 2 * PI)%R.
Proof.
  eexists. split; [reflexivity|]. split; [lra|].
  split; [apply S_steps_set_angle, S_steps_next, S_steps_refl|].
  apply (X7_angle_field_range 4 4 1 90 _ _ eq_refl ltac:(lra)
           (S_steps_set_angle _ _ 45 (S_steps_next _ _ (S_steps_refl _)))).
Defined.
